(** * Dynamic hotkey management: the keybinding manager of mcomix

    A shallow embedding of [mcomix/keybindings.py] and the verification of
    the properties its specification states about it.

    The Python module keeps three dictionaries in a [_KeybindingManager]
    object, talks to GTK for the accelerator notation, to the [log] module
    for warnings, and to one JSON file for persistence.  All of them are
    fields of the record [manager] below; methods are computations in a
    small state-and-exception monad over that record. *)

From stdpp Require Import gmap strings list fin_maps.
From Stdlib Require Import ZArith.

Local Open Scope Z_scope.

(** ** Data model *)

(** A physical binding: [(key code, modifier mask)], as returned by
    [gtk.accelerator_parse]. *)
Definition binding : Type := (Z * Z)%type.

(** Values handed to and returned by callbacks. *)
Inductive pyobj : Type :=
  | PyNone
  | PyInt (z : Z)
  | PyStr (s : string).

(** The triple [(callback, args, kwargs)] stored per action.  A callback is
    taken to be a function of its arguments. *)
Record callback : Type := Callback {
  cb_func : list pyobj → list (string * pyobj) → pyobj;
  cb_args : list pyobj;
  cb_kwargs : list (string * pyobj)
}.

(** The call of [func] on the stored [args] and [kwargs]. *)
Definition invoke (cb : callback) : pyobj :=
  cb_func cb (cb_args cb) (cb_kwargs cb).

(** The persisted document: action name to list of accelerator strings. *)
Abbreviation document := (gmap string (list string)).

(** Calls received by the [log] module. *)
Inductive log_record : Type :=
  | WarnOverrides (action : string)
      (* warning: keybinding for [action] overrides hotkey for another action *)
  | WarnBinding (keycode : binding) (owner : string)
      (* warning: binding [keycode] overrides [owner] *)
  | ErrorLoad
      (* error: could not load keybindings *).

(** Exceptions the methods can raise.  [LoopBound] is not a Python
    exception: it marks a loop of the model that used up its iteration
    bound, and [register_loop_bound_unreachable] shows it never occurs. *)
Inductive exn : Type :=
  | AssertionError
  | KeyError
  | ValueError
  | IndexError
  | LoopBound.

Global Instance exn_eq_dec : EqDecision exn.
Proof. solve_decision. Defined.

(** The manager object together with the parts of the world it acts on. *)
Record manager : Type := Manager {
  _action_to_callback : gmap string callback;      (* action name => (func, args, kwargs) *)
  _action_to_bindings : gmap string (list binding); (* defaultdict(list) *)
  _binding_to_action : gmap binding string;        (* (key code, key modifier) => action name *)
  _window : list string;         (* signals stopped with emit_stop_by_name *)
  conf_file : option document;   (* KEYBINDINGS_CONF_PATH holding a JSON object of
                                    lists of strings; None: absent or unreadable *)
  log_records : list log_record  (* oldest first *)
}.

(** ** External interfaces *)

(** The two GTK functions the module calls. *)
Class Gtk := {
  accelerator_parse : string → binding;
  accelerator_name : Z → Z → string
}.

(** Iteration order of a Python 2 dictionary: some enumeration of its
    items, each exactly once.  Nothing else is known about it. *)
Class DictOrder := {
  iteritems : ∀ {K : Type} `{Countable K} {V : Type}, gmap K V → list (K * V);
  iteritems_perm : ∀ (K : Type) `{Countable K} (V : Type) (m : gmap K V),
      iteritems m ≡ₚ map_to_list m
}.

Definition iterkeys `{DictOrder} {K : Type} `{Countable K} {V : Type}
    (m : gmap K V) : list K :=
  (iteritems m).*1.

(** ** The state-and-exception monad *)

Inductive result (A : Type) : Type :=
  | Ok (a : A) (m : manager)
  | Raise (e : exn) (m : manager).
Arguments Ok {A} a m.
Arguments Raise {A} e m.

Definition M (A : Type) : Type := manager → result A.

Definition ret {A} (a : A) : M A := λ m, Ok a m.

Definition bind {A B} (c : M A) (k : A → M B) : M B :=
  λ m, match c m with
       | Ok a m' => k a m'
       | Raise e m' => Raise e m'
       end.

Definition raise {A} (e : exn) : M A := λ m, Raise e m.
Definition get : M manager := λ m, Ok m m.
Definition modify (f : manager → manager) : M unit := λ m, Ok tt (f m).

Declare Scope py_scope.
Delimit Scope py_scope with py.
Notation "'let*' x ':=' c 'in' k" := (bind c (λ x, k))
  (at level 10, x name, c at level 100, k at level 200) : py_scope.
Notation "c ';;' k" := (bind c (λ _, k))
  (at level 100, k at level 200, right associativity) : py_scope.

(** [assert cond] *)
Definition py_assert (cond : bool) : M unit :=
  if cond then ret tt else raise AssertionError.

(** ** Field updates *)

Definition set_callbacks (f : gmap string callback → gmap string callback)
    (m : manager) : manager :=
  Manager (f (_action_to_callback m)) (_action_to_bindings m)
          (_binding_to_action m) (_window m) (conf_file m) (log_records m).

Definition set_bindings
    (f : gmap string (list binding) → gmap string (list binding))
    (m : manager) : manager :=
  Manager (_action_to_callback m) (f (_action_to_bindings m))
          (_binding_to_action m) (_window m) (conf_file m) (log_records m).

Definition set_actions (f : gmap binding string → gmap binding string)
    (m : manager) : manager :=
  Manager (_action_to_callback m) (_action_to_bindings m)
          (f (_binding_to_action m)) (_window m) (conf_file m) (log_records m).

Definition emit_stop_by_name (signal : string) (m : manager) : manager :=
  Manager (_action_to_callback m) (_action_to_bindings m)
          (_binding_to_action m) (_window m ++ [signal]) (conf_file m)
          (log_records m).

Definition write_conf (d : document) (m : manager) : manager :=
  Manager (_action_to_callback m) (_action_to_bindings m)
          (_binding_to_action m) (_window m) (Some d) (log_records m).

Definition log_call (r : log_record) (m : manager) : manager :=
  Manager (_action_to_callback m) (_action_to_bindings m)
          (_binding_to_action m) (_window m) (conf_file m)
          (log_records m ++ [r]).

(** ** Python list and dictionary primitives *)

(** What [self._action_to_bindings[name]] evaluates to. *)
Definition bindings_of (m : manager) (name : string) : list binding :=
  default [] (_action_to_bindings m !! name).

(** [self._action_to_bindings[name]] as an effect: a [defaultdict(list)]
    stores an empty list under a key it did not have. *)
Definition bindings_getitem (name : string) : M (list binding) :=
  λ m, match _action_to_bindings m !! name with
       | Some l => Ok l m
       | None => Ok [] (set_bindings (insert name []) m)
       end.

(** [self._action_to_bindings[name].append(keycode)] *)
Definition bindings_append (name : string) (keycode : binding)
    (m : manager) : manager :=
  set_bindings (insert name (bindings_of m name ++ [keycode])) m.

(** [list.index(x)]: position of the first occurrence. *)
Fixpoint py_index (x : binding) (l : list binding) : option nat :=
  match l with
  | [] => None
  | y :: l' => if decide (y = x) then Some O else S <$> py_index x l'
  end.

(** [list.remove(x)]: drops the first occurrence; [None] stands for the
    [ValueError] raised when there is none. *)
Fixpoint py_remove (x : binding) (l : list binding) : option (list binding) :=
  match l with
  | [] => None
  | y :: l' => if decide (y = x) then Some l' else (y ::.) <$> py_remove x l'
  end.

(** [list.pop(idx)] for [0 <= idx]: [None] stands for [IndexError]. *)
Definition py_pop (idx : nat) (l : list binding) : option (list binding) :=
  match l !! idx with
  | Some _ => Some (take idx l ++ drop (S idx) l)
  | None => None
  end.

(** [list.insert(idx, x)] for [0 <= idx]; past the end it appends. *)
Definition py_insert (idx : nat) (x : binding) (l : list binding) : list binding :=
  take idx l ++ x :: drop idx l.

(** ** BINDING_INFO *)

Record binding_info : Type := BindingInfo {
  title : string;
  group : option string
}.

Definition info (t g : string) : binding_info := BindingInfo t (Some g).

(** Decimal digit of [i] for [1 <= i <= 9], as ['%d' % i] prints it. *)
Definition digit (i : nat) : string :=
  String (Ascii.ascii_of_nat (48 + i)) EmptyString.

Definition BINDING_INFO_literal : list (string * binding_info) := [
  ("previous page", info "Previous page" "Reading");
  ("next page", info "Next page" "Reading");
  ("previous page ff", info "Back ten pages" "Reading");
  ("next page ff", info "Forward ten pages" "Reading");
  ("previous page dynamic", info "Previous page (dynamic)" "Reading");
  ("next page dynamic", info "Next page (dynamic)" "Reading");
  ("scroll left bottom", info "Scroll to bottom left" "Page orientation and zoom");
  ("scroll middle bottom", info "Scroll to bottom center" "Page orientation and zoom");
  ("scroll right bottom", info "Scroll to bottom right" "Page orientation and zoom");
  ("scroll left middle", info "Scroll to middle left" "Page orientation and zoom");
  ("scroll middle", info "Scroll to center" "Page orientation and zoom");
  ("scroll right middle", info "Scroll to middle right" "Page orientation and zoom");
  ("scroll left top", info "Scroll to top left" "Page orientation and zoom");
  ("scroll middle top", info "Scroll to top center" "Page orientation and zoom");
  ("scroll right top", info "Scroll to top right" "Page orientation and zoom");
  ("exit fullscreen", info "Exit from fullscreen" "User interface");
  ("toggle fullscreen", info "Toggle fullscreen" "User interface");
  ("zoom in", info "Zoom in" "Page orientation and zoom");
  ("zoom out", info "Zoom out" "Page orientation and zoom");
  ("zoom original", info "Normal size" "Page orientation and zoom");
  ("scroll down", info "Scroll down" "Reading");
  ("scroll up", info "Scroll up" "Reading");
  ("scroll right", info "Scroll right" "Reading");
  ("scroll left", info "Scroll left" "Reading");
  ("smart scroll up", info "Smart scroll up" "Reading");
  ("smart scroll down", info "Smart scroll down" "Reading");
  ("osd panel", info "Show OSD panel" "User interface")
]%string.

(** The nine generated entries, ['execute command 1'] to
    ['execute command 9']. *)
Definition BINDING_INFO_generated : list (string * binding_info) :=
  (λ i, ("execute command " +:+ digit i,
         info ("Execute external command (" +:+ digit i +:+ ")") "User interface"))
    <$> seq 1 9.

Definition BINDING_INFO : gmap string binding_info :=
  Eval vm_compute in
    foldl (λ d e, <[e.1 := e.2]> d) (list_to_map BINDING_INFO_literal)
          BINDING_INFO_generated.

(** [name in BINDING_INFO] *)
Definition valid_action (name : string) : bool :=
  bool_decide (is_Some (BINDING_INFO !! name)).

(** ** The methods of [_KeybindingManager] *)

Section Methods.
Context `{Gtk} `{DictOrder}.
Local Open Scope py_scope.

(** The body of the loop of [register], for one [keycode]. *)
Definition register_keycode (name : string) (keycode : binding)
    (m : manager) : manager :=
  match _binding_to_action m !! keycode with
  | Some owner =>
      if decide (owner ≠ name) then
        log_call (WarnBinding keycode owner) (log_call (WarnOverrides name) m)
      else m
  | None =>
      bindings_append name keycode (set_actions (insert keycode name) m)
  end.

(** [for keycode in keycodes] when [keycodes] is a list of its own (the
    parsed defaults). *)
Definition register_defaults (name : string) (keycodes : list binding)
    (m : manager) : manager :=
  foldl (λ m' keycode, register_keycode name keycode m') m keycodes.

(** [for keycode in keycodes] when [keycodes] is the very list stored in
    [_action_to_bindings[name]], which the body appends to: the list
    iterator reads position [i] of the list as it is then, and stops when
    [i] is past its end.  [bound] limits the number of rounds; [None] is
    returned when it is used up. *)
Fixpoint register_stored (bound : nat) (name : string) (i : nat)
    (m : manager) : option manager :=
  match bindings_of m name !! i with
  | None => Some m
  | Some keycode =>
      match bound with
      | O => None
      | S bound' =>
          register_stored bound' name (S i) (register_keycode name keycode m)
      end
  end.

Definition register (name : string) (bindings : list string)
    (cb : callback) : M unit :=
  py_assert (valid_action name) ;;
  (* Load stored keybindings, or fall back to passed arguments *)
  let* keycodes := bindings_getitem name in
  (if decide (keycodes = []) then
     modify (register_defaults name (accelerator_parse <$> bindings))
   else
     λ m, match register_stored (2 * length keycodes) name 0 m with
          | Some m' => Ok tt m'
          | None => Raise LoopBound m
          end) ;;
  modify (set_callbacks (insert name cb)).

(** [save]: the document written has one entry per key of
    [_action_to_bindings]. *)
Definition save : M unit :=
  let* self := get in
  let action_to_keys : document :=
    (λ bindings : list binding,
       (λ b : binding, accelerator_name b.1 b.2) <$> bindings)
      <$> _action_to_bindings self in
  modify (write_conf action_to_keys).

Definition edit_accel (name new_binding old_binding : string)
    : M (option string) :=
  py_assert (valid_action name) ;;
  let nb := accelerator_parse new_binding in
  let* self := get in
  let old_action_with_nb := _binding_to_action self !! nb in
  match old_action_with_nb with
  | Some owner =>
      (* erase old binding with nb *)
      modify (set_actions (delete nb)) ;;
      let* l := bindings_getitem owner in
      match py_remove nb l with
      | Some l' => modify (set_bindings (insert owner l'))
      | None => raise ValueError
      end
  | None => ret tt
  end ;;
  (if decide (old_binding ≠ ""%string) then
     let ob := accelerator_parse old_binding in
     let* self := get in
     match _binding_to_action self !! ob with
     | Some _ => modify (set_actions (delete ob))
     | None => raise KeyError
     end ;;
     modify (set_actions (insert nb name)) ;;
     let* l := bindings_getitem name in
     match py_index ob l with
     | Some idx =>
         match py_pop idx l with
         | Some l' => modify (set_bindings (insert name (py_insert idx nb l')))
         | None => raise IndexError
         end
     | None => raise ValueError
     end
   else
     modify (set_actions (insert nb name)) ;;
     modify (bindings_append name nb)) ;;
  save ;;
  ret old_action_with_nb.

Definition clear_accel (name binding_str : string) : M unit :=
  py_assert (valid_action name) ;;
  let ob := accelerator_parse binding_str in
  let* l := bindings_getitem name in
  match py_remove ob l with
  | Some l' => modify (set_bindings (insert name l'))
  | None => raise ValueError
  end ;;
  let* self := get in
  match _binding_to_action self !! ob with
  | Some _ => modify (set_actions (delete ob))
  | None => raise KeyError
  end ;;
  save.

(** [func, args, kwargs = self._action_to_callback[action]], then stop the
    signal and call. *)
Definition run_action (action : string) : M pyobj :=
  let* self := get in
  match _action_to_callback self !! action with
  | Some cb =>
      modify (emit_stop_by_name "key_press_event") ;;
      ret (invoke cb)
  | None => raise KeyError
  end.

(** [stored_keycode == keybinding[0] and stored_flags & keybinding[1]] *)
Definition fuzzy_match (stored_binding keybinding : binding) : bool :=
  bool_decide (stored_binding.1 = keybinding.1) &&
  negb (Z.land stored_binding.2 keybinding.2 =? 0).

(** The scan of [execute]: the first item, in iteration order, whose
    binding matches returns from the method. *)
Fixpoint execute_scan (items : list (binding * string)) (keybinding : binding)
    : option string :=
  match items with
  | [] => None
  | (stored_binding, action) :: items' =>
      if fuzzy_match stored_binding keybinding then Some action
      else execute_scan items' keybinding
  end.

Definition execute (keybinding : binding) : M pyobj :=
  let* self := get in
  match _binding_to_action self !! keybinding with
  | Some action => run_action action
  | None =>
      match execute_scan (iteritems (_binding_to_action self)) keybinding with
      | Some action => run_action action
      | None =>
          match _binding_to_action self !! (keybinding.1, 0) with
          | Some action => run_action action
          | None => ret PyNone
          end
      end
  end.

(** The body of the loop of [_initialize], for one [action]. *)
Definition initialize_action (stored_action_bindings : document)
    (action : string) (m : manager) : manager :=
  match stored_action_bindings !! action with
  | Some keynames =>
      let bindings := accelerator_parse <$> keynames in
      foldl (λ m' b, set_actions (insert b action) m')
            (set_bindings (insert action bindings) m) bindings
  | None => set_bindings (insert action []) m
  end.

Definition _initialize : M unit :=
  let* self := get in
  let* stored_action_bindings :=
    match conf_file self with
    | Some d => ret d
    | None => modify (log_call ErrorLoad) ;; ret (∅ : document)
    end in
  modify (λ m, foldl (λ m' action, initialize_action stored_action_bindings action m')
                     m (iterkeys BINDING_INFO)).

(** [_KeybindingManager(window)], in a world where the configuration file
    holds [file] and the log holds [logged].  The file is one that is
    absent or unreadable, or one that holds what [save] writes: a JSON
    object from names to lists of strings.  A readable file of another
    shape is no value of [option document]; on such a file the loop of
    [_initialize], which is outside the [try], can raise [TypeError]. *)
Definition new_manager (file : option document) (logged : list log_record)
    : result unit :=
  _initialize (Manager ∅ ∅ ∅ [] file logged).

Definition get_bindings_for_action (name : string) : M (list binding) :=
  bindings_getitem name.

End Methods.

(** ** Instances used to run the methods on concrete inputs *)

(** A fragment of GTK's accelerator notation: three modifier tags and a
    few key names, with the key values and masks GDK gives them. *)
Module GtkFragment.

Definition GDK_SHIFT_MASK : Z := 1.
Definition GDK_CONTROL_MASK : Z := 4.
Definition GDK_MOD1_MASK : Z := 8.
Definition GDK_MOD2_MASK : Z := 16.

Definition keyvals : list (string * Z) := [
  ("a", 97); ("s", 115); ("z", 122);
  ("plus", 43); ("equal", 61); ("minus", 45);
  ("KP_Add", 65451); ("Escape", 65307)
]%string.

Definition keyval_from_name (s : string) : Z :=
  default 0 (snd <$> find (λ e, bool_decide (e.1 = s)) keyvals).

Definition keyval_name (keyval : Z) : string :=
  default ""%string (fst <$> find (λ e, bool_decide (e.2 = keyval)) keyvals).

Fixpoint strip_prefix (p s : string) : option string :=
  match p, s with
  | EmptyString, _ => Some s
  | String c p', String d s' =>
      if decide (c = d) then strip_prefix p' s' else None
  | String _ _, EmptyString => None
  end.

Fixpoint parse_from (fuel : nat) (s : string) (mods : Z) : binding :=
  let key := (λ _ : unit,
    let keyval := keyval_from_name s in
    if decide (keyval = 0) then (0, 0) else (keyval, mods)) in
  match fuel with
  | O => key tt
  | S fuel' =>
      match strip_prefix "<Shift>" s with
      | Some s' => parse_from fuel' s' (Z.lor mods GDK_SHIFT_MASK)
      | None =>
      match strip_prefix "<Control>" s with
      | Some s' => parse_from fuel' s' (Z.lor mods GDK_CONTROL_MASK)
      | None =>
      match strip_prefix "<Alt>" s with
      | Some s' => parse_from fuel' s' (Z.lor mods GDK_MOD1_MASK)
      | None => key tt
      end end end
  end.

Definition parse (s : string) : binding := parse_from (String.length s) s 0.

Definition tag (mods mask : Z) (t : string) : string :=
  if decide (Z.land mods mask = 0) then ""%string else t.

Definition name (keyval mods : Z) : string :=
  tag mods GDK_SHIFT_MASK "<Shift>" +:+ tag mods GDK_CONTROL_MASK "<Control>"
  +:+ tag mods GDK_MOD1_MASK "<Alt>" +:+ keyval_name keyval.

(** The masks [parse] can build, and the bindings it can return. *)
Definition masks : list Z := [0; 1; 4; 5; 8; 9; 12; 13].

Definition bindings : list binding :=
  (0, 0) :: (keyval ← keyvals.*2; mods ← masks; [(keyval, mods)]).

End GtkFragment.

Definition gtk_fragment : Gtk :=
  {| accelerator_parse := GtkFragment.parse;
     accelerator_name := GtkFragment.name |}.

(** The iteration order that lists a dictionary in the order of
    [map_to_list]. *)
Definition listed_order : DictOrder :=
  {| iteritems := λ K _ _ V m, map_to_list m;
     iteritems_perm := λ K _ _ V m, reflexivity (map_to_list m) |}.

(** ** Sequences of operations *)

(** One call of the editing interface. *)
Inductive op : Type :=
  | OpRegister (name : string) (bindings : list string) (cb : callback)
  | OpEdit (name new_binding old_binding : string)
  | OpClear (name binding_str : string).

Section Runs.
Context `{Gtk} `{DictOrder}.

(** The manager after a successful call, [None] when the call raises. *)
Definition run_op (o : op) (m : manager) : option manager :=
  match o with
  | OpRegister name bindings cb =>
      match register name bindings cb m with
      | Ok _ m' => Some m'
      | Raise _ _ => None
      end
  | OpEdit name new_binding old_binding =>
      match edit_accel name new_binding old_binding m with
      | Ok _ m' => Some m'
      | Raise _ _ => None
      end
  | OpClear name binding_str =>
      match clear_accel name binding_str m with
      | Ok _ m' => Some m'
      | Raise _ _ => None
      end
  end.

Fixpoint run_ops (os : list op) (m : manager) : option manager :=
  match os with
  | [] => Some m
  | o :: os' =>
      match run_op o m with
      | Some m' => run_ops os' m'
      | None => None
      end
  end.

End Runs.

(** ** State predicates *)

(** The two views agree: every entry of [_binding_to_action] is listed
    under its action, and every listed binding maps back to the action
    that lists it. *)
Definition views_agree (m : manager) : Prop :=
  (∀ b A, _binding_to_action m !! b = Some A → b ∈ bindings_of m A) ∧
  (∀ A b, b ∈ bindings_of m A → _binding_to_action m !! b = Some A).

(** No action lists a binding twice. *)
Definition no_repeats (m : manager) : Prop :=
  ∀ A, NoDup (bindings_of m A).

(** Every action of the catalog has an entry in [_action_to_bindings], as
    [_initialize] leaves it. *)
Definition constructed (m : manager) : Prop :=
  ∀ name, valid_action name = true → is_Some (_action_to_bindings m !! name).

(** What every manager reached from the constructor satisfies: it has an
    entry exactly for the actions of the catalog, every owner in
    [_binding_to_action] is an action of the catalog, and every listed
    binding has the property [P], where [P] is a property of all the
    bindings [gtk.accelerator_parse] returns. *)
Definition catalog_state (P : binding → Prop) (m : manager) : Prop :=
  dom (_action_to_bindings m) = dom BINDING_INFO ∧
  map_Forall (λ _ A, valid_action A = true) (_binding_to_action m) ∧
  ∀ A b, b ∈ bindings_of m A → P b.

(** [m'] is [m] after [emit_stop_by_name('key_press_event')] was called
    on the window once more: the window has that one more stopped signal,
    and nothing else differs. *)
Definition key_press_stopped (m m' : manager) : Prop :=
  _window m' = _window m ++ ["key_press_event"%string] ∧
  _action_to_callback m' = _action_to_callback m ∧
  _action_to_bindings m' = _action_to_bindings m ∧
  _binding_to_action m' = _binding_to_action m ∧
  conf_file m' = conf_file m ∧
  log_records m' = log_records m.

(** The outcome [r] of a call on [m] is that of handing the event to
    [action]: with a callback on record the signal is stopped and the
    result of the callback on its stored arguments is returned; without
    one, [KeyError] is raised and [m] is as it was. *)
Definition dispatched (m : manager) (action : string) (r : result pyobj)
    : Prop :=
  match _action_to_callback m !! action with
  | Some cb => ∃ m', r = Ok (invoke cb) m' ∧ key_press_stopped m m'
  | None => r = Raise KeyError m
  end.

(** Two managers that differ at most in what was logged. *)
Definition same_registry (m m' : manager) : Prop :=
  _action_to_callback m' = _action_to_callback m ∧
  _action_to_bindings m' = _action_to_bindings m ∧
  _binding_to_action m' = _binding_to_action m ∧
  _window m' = _window m ∧
  conf_file m' = conf_file m.

(** ** Auxiliary definitions *)

Section Auxiliary.
Context `{Gtk} `{DictOrder}.
Local Open Scope py_scope.

(** Bindings of a list that are not yet keys of [_binding_to_action]. *)
Definition unbound_count (m : manager) (l : list binding) : nat :=
  length (filter (λ kc, _binding_to_action m !! kc = None) l).

(** The key codes the loop of [register] goes through: the stored list,
    or the parsed defaults when nothing is stored. *)
Definition adopted (m : manager) (name : string) (bindings : list string)
    : list binding :=
  if decide (bindings_of m name = []) then accelerator_parse <$> bindings
  else bindings_of m name.

(** The manager once [self._action_to_bindings[name]] has been read. *)
Definition touched (name : string) (m : manager) : manager :=
  match _action_to_bindings m !! name with
  | Some _ => m
  | None => set_bindings (insert name []) m
  end.

(** The first block of [edit_accel]: take [nb] away from its owner. *)
Definition detach (nb : binding) : M unit :=
  let* self := get in
  match _binding_to_action self !! nb with
  | Some owner =>
      modify (set_actions (delete nb)) ;;
      let* l := bindings_getitem owner in
      match py_remove nb l with
      | Some l' => modify (set_bindings (insert owner l'))
      | None => raise ValueError
      end
  | None => ret tt
  end.

(** The second block of [edit_accel]: put [nb] in place of the old
    binding, or append it. *)
Definition attach (name : string) (nb : binding) (old_binding : string)
    : M unit :=
  if decide (old_binding ≠ ""%string) then
    let ob := accelerator_parse old_binding in
    let* self := get in
    match _binding_to_action self !! ob with
    | Some _ => modify (set_actions (delete ob))
    | None => raise KeyError
    end ;;
    modify (set_actions (insert nb name)) ;;
    let* l := bindings_getitem name in
    match py_index ob l with
    | Some idx =>
        match py_pop idx l with
        | Some l' => modify (set_bindings (insert name (py_insert idx nb l')))
        | None => raise IndexError
        end
    | None => raise ValueError
    end
  else
    modify (set_actions (insert nb name)) ;;
    modify (bindings_append name nb).

(** The document [save] writes. *)
Definition saved_document (m : manager) : document :=
  (λ bindings : list binding,
     (λ b : binding, accelerator_name b.1 b.2) <$> bindings)
    <$> _action_to_bindings m.

(** The list [_initialize] stores for an action. *)
Definition loaded_bindings (d : document) (action : string) : list binding :=
  match d !! action with
  | Some keynames => accelerator_parse <$> keynames
  | None => []
  end.

(** A list once [list.remove(x)] has been tried on it: without the first
    occurrence of [x], or as it was when [x] does not occur. *)
Definition without (x : binding) (l : list binding) : list binding :=
  default l (py_remove x l).

(** The manager a computation ends in, returning or raising. *)
Definition final {A} (r : result A) : manager :=
  match r with
  | Ok _ m => m
  | Raise _ m => m
  end.

End Auxiliary.

(** The two views agree and no list has a repeated binding. *)
Definition coherent (m : manager) : Prop := views_agree m ∧ no_repeats m.

(** ** Concrete managers *)

Module Scenario.
#[local] Existing Instance gtk_fragment.
#[local] Existing Instance listed_order.

Definition seven : callback := Callback (λ _ _, PyInt 7) [] [].
Definition first_arg : callback :=
  Callback (λ args _, default PyNone (head args)) [PyStr "panel"] [].

(** The manager constructed when there is no configuration file. *)
Definition fresh : manager := final (new_manager None []).

(** ["zoom in"] registered on two defaults, then ["osd panel"] on the
    unmodified key [a]. *)
Definition zoom : manager :=
  final (register "zoom in" ["<Control>equal"; "<Control>KP_Add"]%string
           seven fresh).
Definition zoom_osd : manager :=
  final (register "osd panel" ["a"]%string first_arg zoom).

(** ["zoom out"] then asks for a default that ["zoom in"] holds. *)
Definition zoom_both : manager :=
  final (register "zoom out" ["<Control>equal"; "<Control>minus"]%string
           seven zoom).

(** ["zoom in"] after its first binding was edited. *)
Definition zoom_edited : manager :=
  final (edit_accel "zoom in" "<Control>plus" "<Control>equal" zoom).

(** Editing ["zoom in"] so that a binding it already has replaces the
    other. *)
Definition zoom_merged : manager :=
  final (edit_accel "zoom in" "<Control>equal" "<Control>KP_Add" zoom).

(** An edit for ["zoom out"] that names an old binding nobody has. *)
Definition zoom_failed : manager :=
  final (edit_accel "zoom out" "<Control>equal" "<Control>minus" zoom).

(** A session of three calls on [zoom], and the manager it ends in. *)
Definition session : list op := [
  OpRegister "zoom out" ["<Control>equal"; "<Control>minus"]%string seven;
  OpEdit "zoom in" "<Control>plus" "<Control>equal";
  OpClear "zoom in" "<Control>KP_Add"
].
Definition after_session : manager := default zoom (run_ops session zoom).

(** A name outside the catalog, looked up on the fresh manager. *)
Definition fresh_looked_up : manager :=
  final (get_bindings_for_action "nonexistent action" fresh).

(** A configuration file that gives one binding to two actions, the
    manager loaded from it, and what two calls make of it. *)
Definition conflict_doc : document :=
  {[ "zoom in"%string := ["<Control>plus"%string];
     "zoom out"%string := ["<Control>plus"%string] ]}.
Definition loaded : manager := final (new_manager (Some conflict_doc) []).
Definition loaded_cleared : manager :=
  final (clear_accel "zoom in" "<Control>plus" loaded).
Definition loaded_registered : manager :=
  final (register "zoom out" [] seven loaded_cleared).


(** A failed edit for ["zoom out"] that leaves [<Control>plus] mapped to
    it without being in its list, and an edit for ["zoom in"] after it. *)
Definition zoom_swapped : manager :=
  final (edit_accel "zoom out" "<Control>plus" "<Control>equal" zoom_both).
Definition zoom_swapped_failed : manager :=
  final (edit_accel "zoom in" "<Control>plus" "<Alt>z" zoom_swapped).

(** A configuration file that lists one binding twice under an action,
    and the manager loaded from it before and after an edit. *)
Definition repeat_doc : document :=
  {[ "zoom in"%string := ["<Control>plus"; "<Control>plus"]%string ]}.
Definition repeated : manager := final (new_manager (Some repeat_doc) []).
Definition repeated_edited : manager :=
  final (edit_accel "zoom out" "<Control>plus" "" repeated).

(** A configuration file that gives every binding once, with an entry
    for a name that is not in the catalog, and the manager loaded from
    it. *)
Definition clean_doc : document :=
  {[ "zoom in"%string := ["<Control>plus"; "<Control>KP_Add"]%string;
     "zoom out"%string := ["<Control>minus"%string];
     "retired action"%string := ["a"%string] ]}.
Definition clean : manager := final (new_manager (Some clean_doc) []).

(** Calls on [clean], and the manager they end in. *)
Definition clean_session : list op := [
  OpRegister "zoom in" ["<Control>equal"]%string seven;
  OpEdit "zoom out" "<Control>plus" "<Control>minus";
  OpRegister "osd panel" ["a"]%string first_arg;
  OpClear "zoom in" "<Control>KP_Add"
].
Definition after_clean_session : manager :=
  default clean (run_ops clean_session clean).

End Scenario.

(** ** Tactics *)

(** Unfolds the monad's operations and runs the matches they expose. *)
Ltac run_monad :=
  repeat (progress (unfold py_assert, bind, ret, raise, get, modify;
                    cbv beta iota)).

(** Settles a decidable proposition by evaluating its decision. *)
Ltac decide_now := apply (bool_decide_unpack _); vm_compute; exact I.

(** Settles an equation between closed terms by evaluating both sides. *)
Ltac compute_eq := vm_compute; reflexivity.

(** Settles a conjunction of closed equations and decidable facts. *)
Ltac compute_all := split_and!; first [compute_eq | decide_now].

(** ** Python list primitives *)

Section ListPrimitives.
Implicit Types (x y : binding) (l : list binding) (i : nat).

Lemma py_remove_None x l : py_remove x l = None ↔ x ∉ l.
Proof.
  induction l as [|y l IH]; simpl.
  - split; [intros _; apply not_elem_of_nil | done].
  - destruct (decide (y = x)) as [->|Hne].
    + split; [done | intros Hn; destruct Hn; left].
    + rewrite fmap_None, IH, not_elem_of_cons. intuition congruence.
Qed.

Lemma py_remove_is_Some x l : x ∈ l → is_Some (py_remove x l).
Proof.
  intros Hin. destruct (py_remove x l) eqn:E; [eauto|].
  apply py_remove_None in E. done.
Qed.

Lemma py_remove_Some x l l' :
  py_remove x l = Some l' →
  ∃ l1 l2, l = l1 ++ x :: l2 ∧ l' = l1 ++ l2 ∧ x ∉ l1.
Proof.
  revert l'. induction l as [|y l IH]; intros l'; simpl; [done|].
  destruct (decide (y = x)) as [->|Hne].
  - intros [= <-]. exists [], l. split_and!; [done | done | apply not_elem_of_nil].
  - destruct (py_remove x l) as [l0|] eqn:E; [|done].
    intros [= <-]. destruct (IH l0 eq_refl) as (l1 & l2 & -> & -> & Hn).
    exists (y :: l1), l2. split_and!; [done | done |].
    rewrite not_elem_of_cons. done.
Qed.

Lemma py_remove_elem_of x l l' y :
  py_remove x l = Some l' → y ∈ l' → y ∈ l.
Proof.
  intros (l1 & l2 & -> & -> & _)%py_remove_Some.
  rewrite !elem_of_app, elem_of_cons. tauto.
Qed.

Lemma py_remove_elem_of_ne x l l' y :
  py_remove x l = Some l' → y ≠ x → y ∈ l → y ∈ l'.
Proof.
  intros (l1 & l2 & -> & -> & _)%py_remove_Some Hne.
  rewrite !elem_of_app, elem_of_cons. tauto.
Qed.

Lemma py_remove_NoDup x l l' :
  py_remove x l = Some l' → NoDup l → NoDup l' ∧ x ∉ l'.
Proof.
  intros (l1 & l2 & -> & -> & Hn)%py_remove_Some Hnd.
  apply NoDup_app in Hnd as (Hd1 & Hd & Hd2).
  apply NoDup_cons in Hd2 as (Hx & Hd2).
  split.
  - apply NoDup_app. split_and!; [done | | done].
    intros z Hz Hz2. apply (Hd z Hz). by right.
  - rewrite elem_of_app. tauto.
Qed.

Lemma py_index_Some x l i :
  py_index x l = Some i ↔
  l !! i = Some x ∧ ∀ j, (j < i)%nat → l !! j ≠ Some x.
Proof.
  revert i. induction l as [|y l IH]; intros i; simpl.
  - split; [done | by intros [? _]].
  - destruct (decide (y = x)) as [->|Hne].
    + split.
      * intros [= <-]. split; [done | lia].
      * intros [Hi Hfirst]. destruct i as [|i]; [done|].
        destruct (Hfirst O); [lia | done].
    + rewrite fmap_Some. split.
      * intros (k & Hk & ->). apply IH in Hk as [Hk Hfirst].
        split; [done|]. intros [|j] Hj; simpl; [congruence|].
        apply Hfirst. lia.
      * intros [Hi Hfirst]. destruct i as [|i]; simpl in Hi; [congruence|].
        exists i. split; [|done]. apply IH. split; [done|].
        intros j Hj. apply (Hfirst (S j)). lia.
Qed.

Lemma py_index_None x l : py_index x l = None ↔ x ∉ l.
Proof.
  induction l as [|y l IH]; simpl.
  - split; [intros _; apply not_elem_of_nil | done].
  - destruct (decide (y = x)) as [->|Hne].
    + split; [done | intros Hn; destruct Hn; left].
    + rewrite fmap_None, IH, not_elem_of_cons. intuition congruence.
Qed.

Lemma py_pop_insert l i x y :
  l !! i = Some x →
  ∃ l', py_pop i l = Some l' ∧ py_insert i y l' = <[i := y]> l.
Proof.
  intros Hi. unfold py_pop, py_insert. rewrite Hi. eexists. split; [done|].
  pose proof (lookup_lt_Some _ _ _ Hi) as Hlt.
  rewrite take_app_le, drop_app_ge by (rewrite length_take; lia).
  rewrite take_take, length_take, Nat.min_id.
  replace (i - i `min` length l)%nat with O by lia. simpl.
  by rewrite insert_take_drop.
Qed.

End ListPrimitives.

(** ** The loop of [register] *)

Section RegisterLoop.
Context `{Gtk} `{DictOrder}.
Implicit Types (m : manager) (name : string) (b kc : binding).

Lemma register_keycode_bound name kc m owner :
  _binding_to_action m !! kc = Some owner →
  same_registry m (register_keycode name kc m).
Proof.
  intros Hkc. unfold register_keycode. rewrite Hkc.
  by case_decide.
Qed.

Lemma register_keycode_unbound name kc m :
  _binding_to_action m !! kc = None →
  register_keycode name kc m
  = bindings_append name kc (set_actions (insert kc name) m).
Proof. intros Hkc. unfold register_keycode. by rewrite Hkc. Qed.

Lemma bindings_of_same m m' name :
  _action_to_bindings m' = _action_to_bindings m →
  bindings_of m' name = bindings_of m name.
Proof. unfold bindings_of. by intros ->. Qed.

Lemma bindings_of_set_actions f m A :
  bindings_of (set_actions f m) A = bindings_of m A.
Proof. done. Qed.

Lemma bindings_of_append name kc m A :
  bindings_of (bindings_append name kc m) A
  = if decide (A = name) then bindings_of m name ++ [kc] else bindings_of m A.
Proof.
  unfold bindings_append, bindings_of at 1. simpl.
  case_decide as HA.
  - subst. by rewrite lookup_insert_eq.
  - by rewrite lookup_insert_ne.
Qed.

(** A property kept by the loop body, on the key codes the loop reads, is
    kept by both forms of the loop. *)
Lemma register_defaults_ind (P : manager → Prop) name keycodes m :
  (∀ kc m0, kc ∈ keycodes → P m0 → P (register_keycode name kc m0)) →
  P m → P (register_defaults name keycodes m).
Proof.
  unfold register_defaults.
  revert m. induction keycodes as [|kc l IH]; intros m Hstep Hm; simpl; [done|].
  apply IH.
  - intros kc' m0 Hin. apply Hstep. by right.
  - apply Hstep; [left | done].
Qed.

Lemma register_stored_ind (P : manager → Prop) bound name i m m' :
  (∀ kc m0, kc ∈ bindings_of m0 name → P m0 → P (register_keycode name kc m0)) →
  P m → register_stored bound name i m = Some m' → P m'.
Proof.
  intros Hstep. revert i m.
  induction bound as [|bound IH]; intros i m Hm; simpl.
  - destruct (bindings_of m name !! i); [done|]. by intros [= <-].
  - destruct (bindings_of m name !! i) as [kc|] eqn:Hi; [|by intros [= <-]].
    apply IH, Hstep, Hm. by eapply list_elem_of_lookup_2.
Qed.

Lemma unbound_count_le m l : (unbound_count m l ≤ length l)%nat.
Proof. apply length_filter. Qed.

Lemma unbound_count_insert m l kc name :
  (unbound_count (bindings_append name kc (set_actions (insert kc name) m)) l
   ≤ unbound_count m l)%nat.
Proof.
  unfold unbound_count. simpl.
  induction l as [|x l IH]; [done|].
  rewrite !filter_cons. destruct (decide (kc = x)) as [->|Hne].
  - rewrite lookup_insert_eq. rewrite decide_False by done.
    case_decide; simpl; lia.
  - rewrite lookup_insert_ne by done. case_decide; simpl; lia.
Qed.

(** The stored-list loop stops by reaching the end of the list: each
    round either moves towards the end of an unchanged list, or appends
    one element and binds a key that was unbound. *)
Lemma register_stored_terminates bound name i m :
  (length (bindings_of m name) - i
   + unbound_count m (drop i (bindings_of m name)) ≤ bound)%nat →
  is_Some (register_stored bound name i m).
Proof.
  revert i m. induction bound as [|bound IH]; intros i m Hle; simpl.
  - destruct (bindings_of m name !! i) as [kc|] eqn:Hi; [|eauto].
    apply lookup_lt_Some in Hi. lia.
  - destruct (bindings_of m name !! i) as [kc|] eqn:Hi; [|eauto].
    pose proof (lookup_lt_Some _ _ _ Hi) as Hlt.
    apply IH.
    rewrite (drop_S _ _ _ Hi) in Hle.
    destruct (_binding_to_action m !! kc) as [owner|] eqn:Hkc.
    + destruct (register_keycode_bound name kc m owner Hkc)
        as (_ & Hb & Ha & _).
      rewrite (bindings_of_same _ _ _ Hb).
      unfold unbound_count in *. rewrite Ha.
      rewrite filter_cons, decide_False in Hle by congruence. lia.
    + rewrite (register_keycode_unbound _ _ _ Hkc).
      rewrite bindings_of_append, decide_True by done.
      rewrite bindings_of_set_actions.
      rewrite length_app, drop_app_le by lia. simpl.
      unfold unbound_count at 1. rewrite filter_app, length_app.
      rewrite filter_cons, decide_False; last first.
      { simpl. by rewrite lookup_insert_eq. }
      rewrite filter_nil. simpl.
      pose proof (unbound_count_insert m (drop (S i) (bindings_of m name))
                    kc name) as Hmono.
      unfold unbound_count in *.
      rewrite filter_cons, decide_True in Hle by done. simpl in *. lia.
Qed.

Lemma register_stored_enough name m :
  is_Some (register_stored (2 * length (bindings_of m name)) name 0 m).
Proof.
  apply register_stored_terminates. rewrite drop_0.
  pose proof (unbound_count_le m (bindings_of m name)). lia.
Qed.

End RegisterLoop.

(** ** [register] *)

Section Register.
Context `{Gtk} `{DictOrder}.
Implicit Types (m : manager) (name : string) (b kc : binding).

Lemma same_registry_refl m : same_registry m m.
Proof. by repeat split. Qed.

Lemma same_registry_trans m1 m2 m3 :
  same_registry m1 m2 → same_registry m2 m3 → same_registry m1 m3.
Proof.
  intros (?&?&?&?&?) (?&?&?&?&?). repeat split; congruence.
Qed.

Lemma bindings_getitem_eq name m :
  bindings_getitem name m = Ok (bindings_of m name) (touched name m).
Proof.
  unfold bindings_getitem, bindings_of, touched.
  by destruct (_action_to_bindings m !! name).
Qed.

Lemma bindings_of_touched name m A :
  bindings_of (touched name m) A = bindings_of m A.
Proof.
  unfold touched, bindings_of.
  destruct (_action_to_bindings m !! name) eqn:E; [done|]. simpl.
  destruct (decide (name = A)) as [<-|Hne].
  - by rewrite lookup_insert_eq, E.
  - by rewrite lookup_insert_ne.
Qed.

Lemma touched_stored name m :
  bindings_of m name ≠ [] → touched name m = m.
Proof.
  unfold touched, bindings_of.
  by destruct (_action_to_bindings m !! name).
Qed.

(** [register] on the defaults. *)
Lemma register_unfold_defaults name bindings cb m :
  valid_action name = true → bindings_of m name = [] →
  register name bindings cb m
  = Ok tt (set_callbacks (insert name cb)
             (register_defaults name (accelerator_parse <$> bindings)
                (touched name m))).
Proof.
  intros Hv He. unfold register, py_assert. rewrite Hv. run_monad.
  rewrite bindings_getitem_eq, He. by rewrite decide_True.
Qed.

(** [register] on a stored list. *)
Lemma register_unfold_stored name bindings cb m :
  valid_action name = true → bindings_of m name ≠ [] →
  ∃ m', register_stored (2 * length (bindings_of m name)) name 0 m = Some m' ∧
        register name bindings cb m
        = Ok tt (set_callbacks (insert name cb) m').
Proof.
  intros Hv Hne. destruct (register_stored_enough name m) as [m' Hm'].
  exists m'. split; [done|].
  unfold register, py_assert. rewrite Hv. run_monad.
  rewrite bindings_getitem_eq, touched_stored by done.
  rewrite decide_False by done. by rewrite Hm'.
Qed.

(** [register] returns for every valid name: the bound of the stored-list
    loop is never used up. *)
Lemma register_loop_bound_unreachable name bindings cb m :
  valid_action name = true →
  ∃ m', register name bindings cb m = Ok tt m'.
Proof.
  intros Hv. destruct (decide (bindings_of m name = [])) as [He|Hne].
  - eexists. by apply register_unfold_defaults.
  - destruct (register_unfold_stored name bindings cb m Hv Hne)
      as (m' & _ & ->). eauto.
Qed.

(** What one round of the loop does to the fields. *)
Lemma register_keycode_actions_mono name kc m b A :
  _binding_to_action m !! b = Some A →
  _binding_to_action (register_keycode name kc m) !! b = Some A.
Proof.
  intros Hb. destruct (_binding_to_action m !! kc) as [owner|] eqn:Hkc.
  - destruct (register_keycode_bound name kc m owner Hkc) as (_&_&->&_).
    done.
  - rewrite (register_keycode_unbound _ _ _ Hkc). simpl.
    rewrite lookup_insert_ne; [done | congruence].
Qed.

Lemma register_keycode_log name kc m :
  ∃ new, log_records (register_keycode name kc m) = log_records m ++ new ∧
         ∀ owner, _binding_to_action m !! kc = Some owner → owner ≠ name →
                  new = [WarnOverrides name; WarnBinding kc owner].
Proof.
  unfold register_keycode.
  destruct (_binding_to_action m !! kc) as [owner|] eqn:Hkc.
  - case_decide as Ho.
    + exists [WarnOverrides name; WarnBinding kc owner]. simpl.
      rewrite <- app_assoc. split; [done|]. by intros ? [= <-].
    + exists []. rewrite app_nil_r. split; [done|]. by intros ? [= <-].
  - exists []. simpl. rewrite app_nil_r. done.
Qed.

Lemma register_keycode_bindings name kc m A :
  bindings_of (register_keycode name kc m) A
  = if decide (A = name ∧ _binding_to_action m !! kc = None)
    then bindings_of m name ++ [kc] else bindings_of m A.
Proof.
  destruct (_binding_to_action m !! kc) as [owner|] eqn:Hkc.
  - destruct (register_keycode_bound name kc m owner Hkc) as (_&Hb&_).
    rewrite (bindings_of_same _ _ _ Hb). rewrite decide_False; [done|].
    by intros [_ ?].
  - rewrite (register_keycode_unbound _ _ _ Hkc), bindings_of_append.
    rewrite bindings_of_set_actions.
    destruct (decide (A = name)) as [->|Hne].
    + by rewrite decide_True.
    + rewrite decide_False; [done | by intros [? _]].
Qed.

Lemma register_keycode_frame name kc m :
  _action_to_callback (register_keycode name kc m) = _action_to_callback m ∧
  _window (register_keycode name kc m) = _window m ∧
  conf_file (register_keycode name kc m) = conf_file m.
Proof.
  unfold register_keycode.
  destruct (_binding_to_action m !! kc); [by case_decide | done].
Qed.

End Register.

Section RegisterTheorems.
Context `{Gtk} `{DictOrder}.
Implicit Types (m : manager) (name : string) (b kc : binding).

(** The log only grows during the loop, and a binding that has an owner
    keeps it. *)
Lemma register_defaults_log name keycodes m :
  ∃ new, log_records (register_defaults name keycodes m) = log_records m ++ new.
Proof.
  apply (register_defaults_ind
           (λ m', ∃ new, log_records m' = log_records m ++ new)).
  - intros kc m0 _ [new Hnew].
    destruct (register_keycode_log name kc m0) as (new' & -> & _).
    exists (new ++ new'). by rewrite Hnew, app_assoc.
  - exists []. by rewrite app_nil_r.
Qed.

Lemma register_stored_log bound name i m m' :
  register_stored bound name i m = Some m' →
  ∃ new, log_records m' = log_records m ++ new.
Proof.
  apply (register_stored_ind
           (λ m', ∃ new, log_records m' = log_records m ++ new)).
  - intros kc m0 _ [new Hnew].
    destruct (register_keycode_log name kc m0) as (new' & -> & _).
    exists (new ++ new'). by rewrite Hnew, app_assoc.
  - exists []. by rewrite app_nil_r.
Qed.

(** A conflicting key code that the loop reads is reported. *)
Lemma register_defaults_warns name keycodes m b A :
  b ∈ keycodes → _binding_to_action m !! b = Some A → A ≠ name →
  ∃ new, log_records (register_defaults name keycodes m) = log_records m ++ new ∧
         WarnOverrides name ∈ new ∧ WarnBinding b A ∈ new.
Proof.
  revert m. induction keycodes as [|kc l IH]; intros m Hin Hb HA.
  { by apply elem_of_nil in Hin. }
  change (register_defaults name (kc :: l) m)
    with (register_defaults name l (register_keycode name kc m)).
  destruct (decide (b = kc)) as [->|Hne].
  - destruct (register_keycode_log name kc m) as (new & Hnew & Hwarn).
    rewrite (Hwarn A Hb HA) in Hnew.
    destruct (register_defaults_log name l (register_keycode name kc m))
      as [new' Hnew'].
    exists ([WarnOverrides name; WarnBinding kc A] ++ new').
    rewrite Hnew', Hnew, <- app_assoc. split; [done|].
    split; apply elem_of_app; left; repeat constructor.
  - apply elem_of_cons in Hin as [?|Hin]; [done|].
    destruct (IH (register_keycode name kc m) Hin) as (new' & Hnew' & ? & ?);
      [by apply register_keycode_actions_mono | done |].
    destruct (register_keycode_log name kc m) as (new & Hnew & _).
    exists (new ++ new'). rewrite Hnew', Hnew, <- app_assoc.
    split; [done|]. split; apply elem_of_app; by right.
Qed.

Lemma register_stored_warns bound name i j m m' b A :
  bindings_of m name !! j = Some b → (i ≤ j)%nat →
  _binding_to_action m !! b = Some A → A ≠ name →
  register_stored bound name i m = Some m' →
  ∃ new, log_records m' = log_records m ++ new ∧
         WarnOverrides name ∈ new ∧ WarnBinding b A ∈ new.
Proof.
  revert i m. induction bound as [|bound IH]; intros i m Hj Hij Hb HA; simpl.
  - destruct (bindings_of m name !! i) eqn:Hi; [done|].
    apply lookup_ge_None in Hi. apply lookup_lt_Some in Hj. lia.
  - destruct (bindings_of m name !! i) as [kc|] eqn:Hi; last first.
    { apply lookup_ge_None in Hi. apply lookup_lt_Some in Hj. lia. }
    intros Hrun.
    destruct (register_keycode_log name kc m) as (new & Hnew & Hwarn).
    destruct (decide (i = j)) as [->|Hne].
    + assert (kc = b) as -> by congruence.
      rewrite (Hwarn A Hb HA) in Hnew.
      destruct (register_stored_log _ _ _ _ _ Hrun) as [new' Hnew'].
      exists ([WarnOverrides name; WarnBinding b A] ++ new').
      rewrite Hnew', Hnew, <- app_assoc. split; [done|].
      split; apply elem_of_app; left; repeat constructor.
    + destruct (IH (S i) (register_keycode name kc m)) as (new' & Hnew' & ? & ?);
        [ | lia | by apply register_keycode_actions_mono | done | done | ].
      { rewrite register_keycode_bindings. case_decide; [|done].
        by apply lookup_app_l_Some. }
      exists (new ++ new'). rewrite Hnew', Hnew, <- app_assoc.
      split; [done|]. split; apply elem_of_app; by right.
Qed.

(** A binding with an owner keeps the owner through one round, and the
    round does not change whether the action lists it. *)
Lemma register_keycode_owned name kc m b A :
  _binding_to_action m !! b = Some A →
  _binding_to_action (register_keycode name kc m) !! b = Some A ∧
  (b ∈ bindings_of (register_keycode name kc m) name ↔ b ∈ bindings_of m name).
Proof.
  intros Hb. split; [by apply register_keycode_actions_mono|].
  rewrite register_keycode_bindings. case_decide as Hc; [|done].
  destruct Hc as [_ Hkc]. rewrite elem_of_app, list_elem_of_singleton.
  split; [|by left]. intros [?| ->]; [done | congruence].
Qed.

(** C1 (amended): when [register] goes through a binding that another
    action owns, the owner keeps it and two warnings are logged; the
    binding is in the registering action's list after the call exactly
    when it was there before, so a stored binding stays listed and a
    default is not added. *)
Theorem register_conflict_first_claim_wins name bindings cb m b A :
  valid_action name = true →
  b ∈ adopted m name bindings →
  _binding_to_action m !! b = Some A → A ≠ name →
  ∃ m' new,
    register name bindings cb m = Ok tt m' ∧
    _binding_to_action m' !! b = Some A ∧
    log_records m' = log_records m ++ new ∧
    WarnOverrides name ∈ new ∧ WarnBinding b A ∈ new ∧
    (b ∈ bindings_of m' name ↔ b ∈ bindings_of m name).
Proof.
  intros Hv Hin Hb HA. unfold adopted in Hin.
  set (P := λ m0 : manager,
    _binding_to_action m0 !! b = Some A ∧
    (b ∈ bindings_of m0 name ↔ b ∈ bindings_of m name)).
  assert (∀ kc m0, P m0 → P (register_keycode name kc m0)) as Hstep.
  { intros kc m0 [Hb0 Hin0].
    destruct (register_keycode_owned name kc m0 b A Hb0) as [? Hiff].
    split; [done|]. by rewrite Hiff. }
  case_decide as He.
  - rewrite (register_unfold_defaults _ _ _ _ Hv He).
    set (m1 := touched name m) in *.
    assert (P m1) as HP1.
    { split; [|by unfold m1; rewrite bindings_of_touched].
      unfold m1, touched. by destruct (_action_to_bindings m !! name). }
    destruct (register_defaults_warns name (accelerator_parse <$> bindings)
                m1 b A Hin (proj1 HP1) HA) as (new & Hlog & Hw1 & Hw2).
    pose proof (register_defaults_ind P name
                  (accelerator_parse <$> bindings) m1
                  (λ kc m0 _, Hstep kc m0) HP1) as [Hb' Hin'].
    eexists _, new. split; [done|]. split_and!; try done.
    cbn [log_records set_callbacks]. rewrite Hlog. unfold m1, touched.
    by destruct (_action_to_bindings m !! name).
  - destruct (register_unfold_stored name bindings cb m Hv He)
      as (m' & Hrun & ->).
    apply list_elem_of_lookup in Hin as [j Hj].
    destruct (register_stored_warns _ _ _ _ _ _ _ _ Hj (Nat.le_0_l j) Hb HA Hrun)
      as (new & Hlog & Hw1 & Hw2).
    pose proof (register_stored_ind P _ _ _ _ _
                  (λ kc m0 _, Hstep kc m0) (conj Hb (reflexivity _)) Hrun)
      as [Hb' Hin'].
    eexists _, new. split; [done|]. by split_and!.
Qed.

(** C8 (amended): when the action has a stored list and every binding in
    it is a key of [_binding_to_action], [register] changes neither view
    and ignores the defaults; it stores the callback triple. *)
Theorem register_keeps_stored_bindings name bindings cb m :
  valid_action name = true →
  bindings_of m name ≠ [] →
  (∀ b, b ∈ bindings_of m name → is_Some (_binding_to_action m !! b)) →
  ∃ m', register name bindings cb m = Ok tt m' ∧
        _action_to_bindings m' = _action_to_bindings m ∧
        _binding_to_action m' = _binding_to_action m ∧
        _action_to_callback m' = <[name := cb]> (_action_to_callback m) ∧
        _window m' = _window m ∧
        conf_file m' = conf_file m.
Proof.
  intros Hv Hne Hkeys.
  destruct (register_unfold_stored name bindings cb m Hv Hne)
    as (m' & Hrun & ->).
  assert (same_registry m m') as (Hc & Hb & Ha & Hw & Hf).
  { apply (register_stored_ind (same_registry m) _ _ _ _ _) in Hrun;
      [done | | apply same_registry_refl].
    intros kc m0 Hin Hsame.
    pose proof Hsame as (_ & Hb0 & Ha0 & _).
    rewrite (bindings_of_same _ _ _ Hb0) in Hin.
    destruct (Hkeys kc Hin) as [owner Ho]. rewrite <- Ha0 in Ho.
    eapply same_registry_trans; [done|].
    by eapply register_keycode_bound. }
  eexists. split; [done|]. simpl. by rewrite Hc.
Qed.

End RegisterTheorems.

(** ** [edit_accel], [clear_accel] and [save], block by block *)

Section Blocks.
Context `{Gtk} `{DictOrder}.
Implicit Types (m : manager) (name : string) (b nb ob : binding).

Lemma save_eq m : save m = Ok tt (write_conf (saved_document m) m).
Proof. done. Qed.

Lemma edit_accel_invalid name new_binding old_binding m :
  valid_action name = false →
  edit_accel name new_binding old_binding m = Raise AssertionError m.
Proof. intros Hv. unfold edit_accel, py_assert, bind. by rewrite Hv. Qed.

Lemma edit_accel_eq name new_binding old_binding m :
  valid_action name = true →
  edit_accel name new_binding old_binding m
  = match detach (accelerator_parse new_binding) m with
    | Ok _ m1 =>
        match attach name (accelerator_parse new_binding) old_binding m1 with
        | Ok _ m2 =>
            Ok (_binding_to_action m !! accelerator_parse new_binding)
               (write_conf (saved_document m2) m2)
        | Raise e m2 => Raise e m2
        end
    | Raise e m1 => Raise e m1
    end.
Proof.
  intros Hv. unfold edit_accel, py_assert, bind at 1. rewrite Hv.
  unfold detach. run_monad.
  destruct (_binding_to_action m !! accelerator_parse new_binding); [|done].
  destruct (bindings_getitem s _) as [l m1|]; [|done].
  by destruct (py_remove _ l).
Qed.

Lemma detach_eq nb m :
  detach nb m
  = match _binding_to_action m !! nb with
    | None => Ok tt m
    | Some owner =>
        let m1 := touched owner (set_actions (delete nb) m) in
        match py_remove nb (bindings_of m owner) with
        | Some l' => Ok tt (set_bindings (insert owner l') m1)
        | None => Raise ValueError m1
        end
    end.
Proof.
  unfold detach. run_monad.
  destruct (_binding_to_action m !! nb) as [owner|]; [|done].
  rewrite bindings_getitem_eq, bindings_of_set_actions.
  by destruct (py_remove nb (bindings_of m owner)).
Qed.

Lemma attach_append_eq name nb m :
  attach name nb "" m
  = Ok tt (bindings_append name nb (set_actions (insert nb name) m)).
Proof. done. Qed.

Lemma attach_replace_eq name nb old_binding m :
  old_binding ≠ ""%string →
  attach name nb old_binding m
  = let ob := accelerator_parse old_binding in
    match _binding_to_action m !! ob with
    | None => Raise KeyError m
    | Some _ =>
        let m2 := touched name
                    (set_actions (insert nb name) (set_actions (delete ob) m)) in
        match py_index ob (bindings_of m name) with
        | None => Raise ValueError m2
        | Some idx =>
            match py_pop idx (bindings_of m name) with
            | Some l' => Ok tt (set_bindings (insert name (py_insert idx nb l')) m2)
            | None => Raise IndexError m2
            end
        end
    end.
Proof.
  intros Hold. unfold attach. rewrite decide_True by done. run_monad.
  destruct (_binding_to_action m !! accelerator_parse old_binding); [|done].
  rewrite bindings_getitem_eq, !bindings_of_set_actions.
  destruct (py_index _ _) as [idx|]; [|done].
  by destruct (py_pop idx _).
Qed.

Lemma clear_accel_invalid name binding_str m :
  valid_action name = false →
  clear_accel name binding_str m = Raise AssertionError m.
Proof. intros Hv. unfold clear_accel, py_assert, bind. by rewrite Hv. Qed.

Lemma clear_accel_eq name binding_str m :
  valid_action name = true →
  clear_accel name binding_str m
  = let ob := accelerator_parse binding_str in
    match py_remove ob (bindings_of m name) with
    | None => Raise ValueError (touched name m)
    | Some l' =>
        let m1 := set_bindings (insert name l') (touched name m) in
        match _binding_to_action m !! ob with
        | None => Raise KeyError m1
        | Some _ =>
            let m2 := set_actions (delete ob) m1 in
            Ok tt (write_conf (saved_document m2) m2)
        end
    end.
Proof.
  intros Hv. unfold clear_accel, py_assert, bind at 1. rewrite Hv.
  run_monad. rewrite bindings_getitem_eq.
  destruct (py_remove _ _) as [l'|]; [|done].
  replace (_binding_to_action (set_bindings <[name:=l']> (touched name m)))
    with (_binding_to_action m); last first.
  { unfold touched. by destruct (_action_to_bindings m !! name). }
  by destruct (_binding_to_action m !! _).
Qed.

(** Reading the views of an updated manager. *)
Lemma bindings_of_set_bindings_insert A l m B :
  bindings_of (set_bindings (insert A l) m) B
  = if decide (B = A) then l else bindings_of m B.
Proof.
  unfold bindings_of. simpl. case_decide as HB.
  - subst. by rewrite lookup_insert_eq.
  - by rewrite lookup_insert_ne.
Qed.

Lemma bindings_of_write_conf d m A :
  bindings_of (write_conf d m) A = bindings_of m A.
Proof. done. Qed.

Lemma actions_touched name m :
  _binding_to_action (touched name m) = _binding_to_action m.
Proof. unfold touched. by destruct (_action_to_bindings m !! name). Qed.

Lemma touched_constructed name m :
  is_Some (_action_to_bindings m !! name) → touched name m = m.
Proof. unfold touched. by intros [l ->]. Qed.

End Blocks.

(** ** Failing calls *)

Section Failures.
Context `{Gtk} `{DictOrder}.
Implicit Types (m : manager) (name : string) (b nb ob : binding).

Lemma register_invalid name bindings cb m :
  valid_action name = false →
  register name bindings cb m = Raise AssertionError m.
Proof. intros Hv. unfold register, py_assert, bind. by rewrite Hv. Qed.

(** C5 (amended): [register], [edit_accel] and [clear_accel] called with
    a name that is not in [BINDING_INFO] fail their assertion and leave
    the manager as it was; [get_bindings_for_action] checks nothing and
    returns the list on record for the name, the empty list when there is
    none. *)
Theorem unknown_action_rejected_by_editing_calls name m :
  valid_action name = false →
  (∀ bindings cb, register name bindings cb m = Raise AssertionError m) ∧
  (∀ new_binding old_binding,
     edit_accel name new_binding old_binding m = Raise AssertionError m) ∧
  (∀ binding_str, clear_accel name binding_str m = Raise AssertionError m) ∧
  (∃ m', get_bindings_for_action name m = Ok (bindings_of m name) m').
Proof.
  intros Hv. split_and!.
  - intros. by apply register_invalid.
  - intros. by apply edit_accel_invalid.
  - intros. by apply clear_accel_invalid.
  - eexists. apply bindings_getitem_eq.
Qed.


(** C10 (amended): let the name be valid, the old binding be non-empty
    and no key of [_binding_to_action], and the new binding either have no
    owner or be in its owner's list.  Then [edit_accel] raises [KeyError]
    out of the pop of the old binding, before [save] is reached.  When the
    new binding had an owner, it has by then been taken from both views:
    its entry in [_binding_to_action] is deleted and its first occurrence
    is removed from the owner's list, so the manager is changed; the other
    lists are as they were.  When it had none, the manager is as it
    was. *)
Theorem edit_accel_unbound_old_fails_half_way name new_binding old_binding m :
  let nb := accelerator_parse new_binding in
  let ob := accelerator_parse old_binding in
  valid_action name = true →
  old_binding ≠ ""%string →
  _binding_to_action m !! ob = None →
  (∀ owner, _binding_to_action m !! nb = Some owner →
            nb ∈ bindings_of m owner) →
  ∃ m',
    edit_accel name new_binding old_binding m = Raise KeyError m' ∧
    conf_file m' = conf_file m ∧
    (_binding_to_action m !! nb = None → m' = m) ∧
    (∀ owner, _binding_to_action m !! nb = Some owner →
       _binding_to_action m' = delete nb (_binding_to_action m) ∧
       py_remove nb (bindings_of m owner) = Some (bindings_of m' owner) ∧
       (∀ A, A ≠ owner → bindings_of m' A = bindings_of m A) ∧
       m' ≠ m).
Proof.
  intros nb ob Hv Hold Hob Hlisted. rewrite edit_accel_eq by done. fold nb.
  rewrite detach_eq.
  destruct (_binding_to_action m !! nb) as [owner|] eqn:Hnb.
  - cbv zeta.
    destruct (py_remove_is_Some _ _ (Hlisted owner eq_refl)) as [l' Hrem].
    rewrite Hrem, attach_replace_eq by done. cbv zeta. fold ob.
    assert (_binding_to_action
              (set_bindings <[owner:=l']>
                 (touched owner (set_actions (delete nb) m)))
            = delete nb (_binding_to_action m)) as Hact.
    { simpl. by rewrite actions_touched. }
    rewrite Hact.
    rewrite (proj2 (lookup_delete_None _ nb ob)) by (by right).
    eexists. split; [done|].
    split. { simpl. unfold touched. by case_match. }
    split; [done|]. intros ? [= <-]. split_and!.
    + exact Hact.
    + by rewrite bindings_of_set_bindings_insert, decide_True.
    + intros A HA.
      rewrite bindings_of_set_bindings_insert, decide_False by done.
      by rewrite bindings_of_touched, bindings_of_set_actions.
    + intros Heq. rewrite Heq in Hact. apply (f_equal (.!! nb)) in Hact.
      rewrite lookup_delete_eq in Hact. congruence.
  - rewrite attach_replace_eq by done. cbv zeta. fold ob. rewrite Hob.
    eexists. split; [done|]. split; [done|]. split; [done|]. by intros.
Qed.

(** C7 (amended): let the action's list have the first occurrence of the
    old binding at index [i], the old binding be a key of
    [_binding_to_action], the new binding differ from it, and the new
    binding either have no owner or have an owner other than [name] that
    lists it.  Then [edit_accel] with a non-empty old binding puts the new
    binding at index [i] in place of the old one, moves nothing else in
    the list, maps the new binding to [name], and removes the old binding
    from [_binding_to_action]. *)
Theorem edit_accel_replaces_in_place name new_binding old_binding m i :
  let nb := accelerator_parse new_binding in
  let ob := accelerator_parse old_binding in
  valid_action name = true →
  old_binding ≠ ""%string →
  bindings_of m name !! i = Some ob →
  (∀ j, (j < i)%nat → bindings_of m name !! j ≠ Some ob) →
  is_Some (_binding_to_action m !! ob) →
  nb ≠ ob →
  (∀ owner, _binding_to_action m !! nb = Some owner →
            owner ≠ name ∧ nb ∈ bindings_of m owner) →
  ∃ m',
    edit_accel name new_binding old_binding m
    = Ok (_binding_to_action m !! nb) m' ∧
    bindings_of m' name = <[i := nb]> (bindings_of m name) ∧
    _binding_to_action m' !! nb = Some name ∧
    _binding_to_action m' !! ob = None.
Proof.
  intros nb ob Hv Hold Hi Hfirst [X Hob] Hne Hnb.
  rewrite edit_accel_eq by done. fold nb.
  assert (∃ m1, detach nb m = Ok tt m1 ∧
                bindings_of m1 name = bindings_of m name ∧
                _binding_to_action m1 !! ob = Some X) as (m1 & -> & Hl1 & Hob1).
  { rewrite detach_eq. destruct (_binding_to_action m !! nb) as [owner|] eqn:E.
    - destruct (Hnb owner eq_refl) as [Hown Hin].
      destruct (py_remove_is_Some _ _ Hin) as [l' Hl']. cbv zeta. rewrite Hl'.
      eexists. split; [done|]. split.
      + rewrite bindings_of_set_bindings_insert, decide_False by done.
        by rewrite bindings_of_touched, bindings_of_set_actions.
      + simpl. rewrite actions_touched. simpl.
        by rewrite lookup_delete_ne.
    - eauto. }
  rewrite attach_replace_eq by done. cbv zeta. fold ob. rewrite Hob1, Hl1.
  assert (py_index ob (bindings_of m name) = Some i) as ->.
  { by apply py_index_Some. }
  destruct (py_pop_insert _ _ _ nb Hi) as (l' & -> & Hins).
  eexists. split; [done|]. split_and!.
  - rewrite bindings_of_write_conf, bindings_of_set_bindings_insert.
    by rewrite decide_True.
  - simpl. rewrite actions_touched. simpl. by rewrite lookup_insert_eq.
  - simpl. rewrite actions_touched. simpl.
    rewrite lookup_insert_ne by done. by rewrite lookup_delete_eq.
Qed.

End Failures.

(** ** The two views stay in agreement *)

Section Coherence.
Context `{Gtk} `{DictOrder}.
Implicit Types (m : manager) (name : string) (b x nb ob : binding).

Lemma coherent_ext m m' :
  (∀ A, bindings_of m' A = bindings_of m A) →
  _binding_to_action m' = _binding_to_action m →
  coherent m → coherent m'.
Proof.
  intros Hb Ha [[H1 H2] H3]. split; [split|].
  - intros b A. rewrite Ha, Hb. apply H1.
  - intros A b. rewrite Ha, Hb. apply H2.
  - intros A. rewrite Hb. apply H3.
Qed.

Lemma coherent_unlisted m x :
  coherent m → _binding_to_action m !! x = None → ∀ A, x ∉ bindings_of m A.
Proof. intros [[_ H2] _] Hx A Hin. apply H2 in Hin. congruence. Qed.

(** Taking a binding away from the action that owns it. *)
Lemma coherent_remove m m1 owner x l' :
  coherent m →
  _binding_to_action m !! x = Some owner →
  py_remove x (bindings_of m owner) = Some l' →
  _binding_to_action m1 = delete x (_binding_to_action m) →
  (∀ A, bindings_of m1 A = if decide (A = owner) then l' else bindings_of m A) →
  coherent m1 ∧ _binding_to_action m1 !! x = None.
Proof.
  intros [[H1 H2] H3] Hx Hrem Ha Hb.
  destruct (py_remove_NoDup _ _ _ Hrem (H3 owner)) as [Hnd Hxl'].
  split; [split; [split|] |].
  - intros b A. rewrite Ha, Hb. intros [Hbx HbA]%lookup_delete_Some.
    apply H1 in HbA. case_decide as HA; [subst A | done].
    by eapply py_remove_elem_of_ne.
  - intros A b. rewrite Ha, Hb. intros Hin.
    apply lookup_delete_Some. case_decide as HA.
    + subst A. split; [by intros <-|].
      apply H2. by eapply py_remove_elem_of.
    + split; [|by apply H2]. intros <-. apply H2 in Hin. congruence.
  - intros A. rewrite Hb. case_decide; [done | apply H3].
  - rewrite Ha. apply lookup_delete_eq.
Qed.

(** Appending a binding that has no owner. *)
Lemma coherent_append m m1 name x :
  coherent m →
  _binding_to_action m !! x = None →
  _binding_to_action m1 = <[x := name]> (_binding_to_action m) →
  (∀ A, bindings_of m1 A
        = if decide (A = name) then bindings_of m name ++ [x]
          else bindings_of m A) →
  coherent m1.
Proof.
  intros Hc Hx Ha Hb. pose proof (coherent_unlisted m x Hc Hx) as Hun.
  destruct Hc as [[H1 H2] H3]. split; [split|].
  - intros b A. rewrite Ha, Hb. intros [[<- <-]|[Hne HbA]]%lookup_insert_Some.
    + rewrite decide_True by done. apply elem_of_app. right. by left.
    + apply H1 in HbA. case_decide; [subst A|done].
      apply elem_of_app. by left.
  - intros A b. rewrite Ha, Hb. case_decide as HA.
    + subst A. intros [Hin|Hin%list_elem_of_singleton]%elem_of_app.
      * rewrite lookup_insert_ne; [by apply H2|].
        intros <-. by apply (Hun name).
      * subst b. by rewrite lookup_insert_eq.
    + intros Hin. rewrite lookup_insert_ne; [by apply H2|].
      intros <-. by apply (Hun A).
  - intros A. rewrite Hb. case_decide; [|apply H3].
    apply NoDup_app. split_and!; [apply H3 | | apply NoDup_singleton].
    intros y Hy ->%list_elem_of_singleton. by apply (Hun name).
Qed.

(** Putting a binding that has no owner in place of a listed one. *)
Lemma coherent_replace m m1 name ob nb idx :
  coherent m →
  _binding_to_action m !! nb = None →
  py_index ob (bindings_of m name) = Some idx →
  _binding_to_action m1 = <[nb := name]> (delete ob (_binding_to_action m)) →
  (∀ A, bindings_of m1 A
        = if decide (A = name) then <[idx := nb]> (bindings_of m name)
          else bindings_of m A) →
  coherent m1.
Proof.
  intros Hc Hnb Hidx Ha Hb.
  pose proof (coherent_unlisted m nb Hc Hnb) as Hun.
  destruct Hc as [[H1 H2] H3].
  apply py_index_Some in Hidx as [Hidx _].
  apply list_elem_of_split_length in Hidx as (l1 & l2 & Hl & ->).
  assert (<[length l1 := nb]> (bindings_of m name) = l1 ++ nb :: l2) as Hins.
  { rewrite Hl. by rewrite insert_app_r_alt, Nat.sub_diag by lia. }
  rewrite Hins in Hb. clear Hins.
  assert (_binding_to_action m !! ob = Some name) as Hob.
  { apply H2. rewrite Hl. apply elem_of_app. right. by left. }
  assert (nb ≠ ob) as Hne by congruence.
  pose proof (H3 name) as Hnd. rewrite Hl in Hnd.
  apply NoDup_app in Hnd as (Hd1 & Hd12 & Hd2).
  apply NoDup_cons in Hd2 as [Hob2 Hd2].
  assert ((nb ∉ l1) ∧ (nb ∉ l2)) as [Hnb1 Hnb2].
  { split; intros Hin; apply (Hun name); rewrite Hl, elem_of_app;
      [by left | (right; by right)]. }
  split; [split|].
  - intros b A. rewrite Ha, Hb. intros [[<- <-]|[Hbn HbA]]%lookup_insert_Some.
    + rewrite decide_True by done. apply elem_of_app. right. by left.
    + apply lookup_delete_Some in HbA as [Hbo HbA]. apply H1 in HbA.
      case_decide; [subst A|done].
      rewrite Hl in HbA. revert HbA.
      rewrite !elem_of_app, !elem_of_cons. intuition congruence.
  - intros A b. rewrite Ha, Hb. case_decide as HA.
    + subst A. intros Hin.
      destruct (decide (b = nb)) as [->|Hbn]; [by rewrite lookup_insert_eq|].
      rewrite lookup_insert_ne by done.
      assert (b ∈ l1 ∨ b ∈ l2) as Hb12.
      { revert Hin. rewrite !elem_of_app, !elem_of_cons. tauto. }
      apply lookup_delete_Some. split.
      * intros <-. destruct Hb12 as [Hb1|Hb2]; [|done].
        apply (Hd12 _ Hb1). by left.
      * apply H2. rewrite Hl, elem_of_app, elem_of_cons. tauto.
    + intros Hin. pose proof (H2 _ _ Hin) as HbA.
      rewrite lookup_insert_ne; [|intros <-; by apply (Hun A)].
      apply lookup_delete_Some. split; [|done]. intros <-. congruence.
  - intros A. rewrite Hb. case_decide; [|apply H3].
    apply NoDup_app. split_and!; [done | |].
    + intros y Hy [->|Hy2]%elem_of_cons; [done|].
      apply (Hd12 _ Hy). by right.
    + apply NoDup_cons. done.
Qed.

Lemma register_keycode_coherent name kc m :
  coherent m → coherent (register_keycode name kc m).
Proof.
  intros Hc. destruct (_binding_to_action m !! kc) as [owner|] eqn:Hkc.
  - destruct (register_keycode_bound name kc m owner Hkc) as (_&Hb&Ha&_).
    eapply coherent_ext; [|done..]. intros A. by apply bindings_of_same.
  - rewrite (register_keycode_unbound _ _ _ Hkc).
    eapply (coherent_append m _ name kc); [done..|].
    intros A. by rewrite bindings_of_append, bindings_of_set_actions.
Qed.

Lemma touched_coherent name m : coherent m → coherent (touched name m).
Proof.
  apply coherent_ext; [intros; apply bindings_of_touched | apply actions_touched].
Qed.

Lemma register_coherent name bindings cb m m' :
  coherent m → register name bindings cb m = Ok tt m' → coherent m'.
Proof.
  intros Hc. destruct (valid_action name) eqn:Hv; last first.
  { by rewrite register_invalid. }
  destruct (decide (bindings_of m name = [])) as [He|Hne].
  - rewrite register_unfold_defaults by done. intros [= <-].
    eapply (coherent_ext (register_defaults _ _ _)); [done..|].
    apply register_defaults_ind; [|by apply touched_coherent].
    intros. by apply register_keycode_coherent.
  - destruct (register_unfold_stored name bindings cb m Hv Hne)
      as (m1 & Hrun & ->). intros [= <-].
    eapply (coherent_ext m1); [done..|].
    eapply register_stored_ind; [|exact Hc|exact Hrun].
    intros. by apply register_keycode_coherent.
Qed.

Lemma detach_coherent nb m m1 :
  coherent m → detach nb m = Ok tt m1 →
  coherent m1 ∧ _binding_to_action m1 !! nb = None.
Proof.
  intros Hc. rewrite detach_eq.
  destruct (_binding_to_action m !! nb) as [owner|] eqn:Hnb.
  - cbv zeta. destruct (py_remove nb (bindings_of m owner)) as [l'|] eqn:Hrem;
      [|done].
    intros [= <-]. eapply coherent_remove; [done..| |].
    + simpl. by rewrite actions_touched.
    + intros A. rewrite bindings_of_set_bindings_insert.
      by rewrite bindings_of_touched, bindings_of_set_actions.
  - by intros [= <-].
Qed.

Lemma attach_coherent name nb old_binding m m1 :
  coherent m → _binding_to_action m !! nb = None →
  attach name nb old_binding m = Ok tt m1 → coherent m1.
Proof.
  intros Hc Hnb. destruct (decide (old_binding = ""%string)) as [->|Hold].
  - rewrite attach_append_eq. intros [= <-].
    eapply (coherent_append m _ name nb); [done..|].
    intros A. by rewrite bindings_of_append, bindings_of_set_actions.
  - rewrite attach_replace_eq by done. cbv zeta.
    destruct (_binding_to_action m !! accelerator_parse old_binding)
      as [X|] eqn:Hob; [|done].
    destruct (py_index _ _) as [idx|] eqn:Hidx; [|done].
    pose proof Hidx as [Hl _]%py_index_Some.
    destruct (py_pop_insert _ _ _ nb Hl) as (l' & -> & Hins).
    intros [= <-]. eapply coherent_replace; [done..| |].
    + simpl. by rewrite actions_touched.
    + intros A. rewrite bindings_of_set_bindings_insert, Hins.
      by rewrite bindings_of_touched, !bindings_of_set_actions.
Qed.

Lemma edit_accel_coherent name new_binding old_binding m r m' :
  coherent m → edit_accel name new_binding old_binding m = Ok r m' →
  coherent m'.
Proof.
  intros Hc. destruct (valid_action name) eqn:Hv; last first.
  { by rewrite edit_accel_invalid. }
  rewrite edit_accel_eq by done.
  destruct (detach _ m) as [[] m1|] eqn:Hd; [|done].
  destruct (detach_coherent _ _ _ Hc Hd) as [Hc1 Hnb].
  destruct (attach _ _ _ m1) as [[] m2|] eqn:Hat; [|done].
  intros [= _ <-]. eapply (coherent_ext m2); [done..|].
  by eapply attach_coherent.
Qed.

Lemma clear_accel_coherent name binding_str m m' :
  coherent m → clear_accel name binding_str m = Ok tt m' → coherent m'.
Proof.
  intros Hc. destruct (valid_action name) eqn:Hv; last first.
  { by rewrite clear_accel_invalid. }
  rewrite clear_accel_eq by done. cbv zeta.
  destruct (py_remove _ _) as [l'|] eqn:Hrem; [|done].
  destruct (_binding_to_action m !! accelerator_parse binding_str)
    as [X|] eqn:Hob; [|done].
  intros [= <-].
  assert (X = name) as ->.
  { apply py_remove_Some in Hrem as (l1 & l2 & Hl & _).
    destruct Hc as [[_ H2] _].
    assert (accelerator_parse binding_str ∈ bindings_of m name) as Hin.
    { rewrite Hl. apply elem_of_app. right. by left. }
    apply H2 in Hin. congruence. }
  eapply (coherent_ext (set_actions (delete (accelerator_parse binding_str))
            (set_bindings <[name:=l']> (touched name m)))); [done..|].
  eapply coherent_remove; [done..| |].
  - simpl. by rewrite actions_touched.
  - intros A. rewrite bindings_of_set_actions, bindings_of_set_bindings_insert.
    by rewrite bindings_of_touched.
Qed.

Lemma run_op_coherent o m m' :
  coherent m → run_op o m = Some m' → coherent m'.
Proof.
  intros Hc. destruct o as [name bindings cb|name nb ob|name bs]; simpl.
  - destruct (register _ _ _ m) as [[] m1|] eqn:E; [|done].
    intros [= <-]. by eapply register_coherent.
  - destruct (edit_accel _ _ _ m) as [r m1|] eqn:E; [|done].
    intros [= <-]. by eapply edit_accel_coherent.
  - destruct (clear_accel _ _ m) as [[] m1|] eqn:E; [|done].
    intros [= <-]. by eapply clear_accel_coherent.
Qed.

(** C3 (amended): from a manager whose two views agree and whose lists
    have no repeated binding, any sequence of successful [register],
    [edit_accel] and [clear_accel] calls leads to a manager whose two
    views agree, and whose lists still have no repeated binding. *)
Theorem views_agree_after_successful_calls os m m' :
  views_agree m → no_repeats m →
  run_ops os m = Some m' →
  views_agree m' ∧ no_repeats m'.
Proof.
  intros Hv Hn. assert (coherent m) as Hc by done. clear Hv Hn.
  revert m Hc. induction os as [|o os IH]; intros m Hc; simpl.
  - by intros [= <-].
  - destruct (run_op o m) as [m1|] eqn:E; [|done].
    apply IH. by eapply run_op_coherent.
Qed.

End Coherence.

(** ** [execute] *)

Section Execute.
Context `{Gtk} `{DictOrder}.
Implicit Types (m : manager) (kb sb : binding).

Lemma fuzzy_match_spec sb kb :
  fuzzy_match sb kb = true ↔ sb.1 = kb.1 ∧ Z.land sb.2 kb.2 ≠ 0.
Proof.
  unfold fuzzy_match.
  rewrite andb_true_iff, bool_decide_eq_true, negb_true_iff, Z.eqb_neq.
  done.
Qed.

Lemma run_action_eq action m :
  run_action action m
  = match _action_to_callback m !! action with
    | Some cb => Ok (invoke cb) (emit_stop_by_name "key_press_event" m)
    | None => Raise KeyError m
    end.
Proof.
  unfold run_action. run_monad. by destruct (_action_to_callback m !! action).
Qed.

Lemma elem_of_iteritems {K : Type} `{Countable K} {V : Type}
    (d : gmap K V) k v :
  (k, v) ∈ iteritems d ↔ d !! k = Some v.
Proof. by rewrite (iteritems_perm K V d), elem_of_map_to_list. Qed.

Lemma execute_scan_None items kb :
  execute_scan items kb = None ↔
  ∀ sb a, (sb, a) ∈ items → fuzzy_match sb kb = false.
Proof.
  induction items as [|[sb a] items IH]; simpl.
  - split; [|done]. intros _ ?? Hin. by apply elem_of_nil in Hin.
  - destruct (fuzzy_match sb kb) eqn:E.
    + split; [done|]. intros Hall. rewrite (Hall sb a) in E; [done | left].
    + rewrite IH. split.
      * intros Hall sb' a' [[= -> ->]|Hin]%elem_of_cons; [done | eauto].
      * intros Hall sb' a' Hin. apply (Hall sb' a'). by right.
Qed.

Lemma execute_scan_Some items kb a :
  execute_scan items kb = Some a →
  ∃ sb, (sb, a) ∈ items ∧ fuzzy_match sb kb = true.
Proof.
  induction items as [|[sb a'] items IH]; simpl; [done|].
  destruct (fuzzy_match sb kb) eqn:E.
  - intros [= ->]. exists sb. split; [left | done].
  - intros (sb' & Hin & Hm)%IH. exists sb'. split; [by right | done].
Qed.

(** The scan returns the action of the first matching item. *)
Lemma execute_scan_first pre sb a post kb :
  (∀ x, x ∈ pre → fuzzy_match x.1 kb = false) →
  fuzzy_match sb kb = true →
  execute_scan (pre ++ (sb, a) :: post) kb = Some a.
Proof.
  intros Hpre Hm. induction pre as [|[sb' a'] pre IH]; simpl.
  - by rewrite Hm.
  - pose proof (Hpre (sb', a') ltac:(left)) as E. simpl in E. rewrite E.
    apply IH.
    intros x Hx. apply Hpre. by right.
Qed.

Lemma run_action_dispatched action m :
  dispatched m action (run_action action m).
Proof.
  unfold dispatched. rewrite run_action_eq.
  destruct (_action_to_callback m !! action) as [cb|]; [|done].
  eexists. split; [done|]. by repeat split.
Qed.

(** C2 (amended): [execute] goes through three lookups in order.  An
    exact entry for the event binding is taken first.  Without one, an
    entry whose key code is the event's and whose mask has a bit in common
    with the event's is taken, when there is such an entry.  Without
    either, the entry of the key code with no modifier is taken.  When the
    action found has a callback on record, the window gets
    ['key_press_event'] stopped once more, nothing else changes, and the
    result of the callback on its stored arguments is returned; when it
    has none, [KeyError] is raised and the manager is as it was. *)
Theorem execute_three_tiers kb m :
  (∀ a,
     _binding_to_action m !! kb = Some a →
     dispatched m a (execute kb m)) ∧
  (_binding_to_action m !! kb = None →
   (∃ sb a, _binding_to_action m !! sb = Some a ∧
            sb.1 = kb.1 ∧ Z.land sb.2 kb.2 ≠ 0) →
   ∃ sb a, _binding_to_action m !! sb = Some a ∧
           (sb.1 = kb.1 ∧ Z.land sb.2 kb.2 ≠ 0) ∧
           dispatched m a (execute kb m)) ∧
  (∀ a,
     _binding_to_action m !! kb = None →
     (∀ sb a', _binding_to_action m !! sb = Some a' →
               ¬ (sb.1 = kb.1 ∧ Z.land sb.2 kb.2 ≠ 0)) →
     _binding_to_action m !! (kb.1, 0) = Some a →
     dispatched m a (execute kb m)).
Proof.
  unfold execute. run_monad. split_and!.
  - intros a ->. apply run_action_dispatched.
  - intros -> (sb0 & a0 & Hsb0 & Hm0).
    destruct (execute_scan (iteritems (_binding_to_action m)) kb)
      as [a|] eqn:Hscan.
    + destruct (execute_scan_Some _ _ _ Hscan) as (sb & Hin & Hm).
      exists sb, a. split; [by apply elem_of_iteritems|].
      split; [by apply fuzzy_match_spec|]. apply run_action_dispatched.
    + rewrite execute_scan_None in Hscan.
      apply fuzzy_match_spec in Hm0.
      rewrite (Hscan sb0 a0) in Hm0; [done | by apply elem_of_iteritems].
  - intros a -> Hnone Hbare.
    assert (execute_scan (iteritems (_binding_to_action m)) kb = None) as ->.
    { apply execute_scan_None. intros sb a' Hin%elem_of_iteritems.
      apply not_true_iff_false. rewrite fuzzy_match_spec. by eapply Hnone. }
    rewrite Hbare. apply run_action_dispatched.
Qed.

(** C9: when the event binding has no exact entry, no entry with its key
    code and a mask sharing a bit with its mask, and no entry for its key
    code without modifiers, [execute] returns [None] and leaves the
    manager as it was: no signal is stopped and no callback is called. *)
Theorem execute_no_match kb m :
  _binding_to_action m !! kb = None →
  (∀ sb a, _binding_to_action m !! sb = Some a →
           ¬ (sb.1 = kb.1 ∧ Z.land sb.2 kb.2 ≠ 0)) →
  _binding_to_action m !! (kb.1, 0) = None →
  execute kb m = Ok PyNone m.
Proof.
  intros Hexact Hnone Hbare. unfold execute. run_monad. rewrite Hexact.
  assert (execute_scan (iteritems (_binding_to_action m)) kb = None) as ->.
  { apply execute_scan_None. intros sb a' Hin%elem_of_iteritems.
    apply not_true_iff_false. rewrite fuzzy_match_spec. by eapply Hnone. }
  by rewrite Hbare.
Qed.

End Execute.

(** ** Persistence *)

Section Persistence.
Context `{Gtk} `{DictOrder}.
Implicit Types (m : manager) (name action : string) (d : document).

Lemma elem_of_iterkeys {V : Type} (dict : gmap string V) k :
  k ∈ iterkeys dict ↔ is_Some (dict !! k).
Proof.
  unfold iterkeys. rewrite list_elem_of_fmap. split.
  - intros ([k' v] & -> & Hin). apply elem_of_iteritems in Hin. eauto.
  - intros [v Hv]. exists (k, v). split; [done|]. by apply elem_of_iteritems.
Qed.

Lemma install_actions_frame action (bs : list binding) m :
  let m' := foldl (λ m0 b, set_actions (insert b action) m0) m bs in
  _action_to_bindings m' = _action_to_bindings m ∧
  _action_to_callback m' = _action_to_callback m ∧
  conf_file m' = conf_file m.
Proof.
  revert m. induction bs as [|b bs IH]; intros m; simpl; [done|].
  destruct (IH (set_actions <[b:=action]> m)) as (-> & -> & ->). done.
Qed.

Lemma initialize_action_bindings d action m :
  _action_to_bindings (initialize_action d action m)
  = <[action := loaded_bindings d action]> (_action_to_bindings m).
Proof.
  unfold initialize_action, loaded_bindings.
  destruct (d !! action) as [keynames|]; [|done].
  by destruct (install_actions_frame action (accelerator_parse <$> keynames)
                 (set_bindings <[action:=accelerator_parse <$> keynames]> m))
    as (-> & _).
Qed.

Lemma initialize_loop_bindings d (keys : list string) m action :
  _action_to_bindings
    (foldl (λ m' a, initialize_action d a m') m keys) !! action
  = if decide (action ∈ keys) then Some (loaded_bindings d action)
    else _action_to_bindings m !! action.
Proof.
  revert m. induction keys as [|k keys IH]; intros m; cbn [foldl].
  - rewrite decide_False; [done | apply not_elem_of_nil].
  - rewrite IH. destruct (decide (action ∈ keys)) as [Hin|Hnin].
    + rewrite decide_True; [done | by right].
    + rewrite initialize_action_bindings.
      destruct (decide (action = k)) as [->|Hne].
      * rewrite lookup_insert_eq. rewrite decide_True; [done | left].
      * rewrite lookup_insert_ne by done. rewrite decide_False; [done|].
        rewrite not_elem_of_cons. done.
Qed.

Lemma new_manager_eq file logged :
  new_manager file logged
  = Ok tt (foldl (λ m' a, initialize_action (default ∅ file) a m')
             (Manager ∅ ∅ ∅ [] file
                (logged ++ if file is Some _ then [] else [ErrorLoad]))
             (iterkeys BINDING_INFO)).
Proof.
  unfold new_manager, _initialize. run_monad. simpl.
  destruct file as [d|]; simpl; [|done]. by rewrite app_nil_r.
Qed.

(** A freshly constructed manager has an entry for every action of the
    catalog, and for nothing else. *)
Lemma new_manager_bindings file logged action :
  _action_to_bindings (final (new_manager file logged)) !! action
  = if decide (is_Some (BINDING_INFO !! action))
    then Some (loaded_bindings (default ∅ file) action)
    else None.
Proof.
  rewrite new_manager_eq. simpl. rewrite initialize_loop_bindings. simpl.
  destruct (decide (action ∈ iterkeys BINDING_INFO)) as [Hin|Hnin].
  - rewrite decide_True; [done | by apply elem_of_iterkeys].
  - rewrite decide_False; [done | by rewrite <- elem_of_iterkeys].
Qed.

Lemma new_manager_constructed file logged :
  constructed (final (new_manager file logged)).
Proof.
  intros name Hv. rewrite new_manager_bindings.
  apply bool_decide_eq_true in Hv. rewrite decide_True by done. eauto.
Qed.

(** C4: let the manager have an entry exactly for the actions of the
    catalog, and let every binding it lists be one that GTK's notation
    gives back ([accelerator_parse] of its [accelerator_name] is the
    binding).  Then [save] followed by the construction of a new manager,
    which loads the saved file, gives the same [_action_to_bindings]:
    the same actions with the same lists in the same order. *)
Theorem save_then_load_round_trip m logged :
  dom (_action_to_bindings m) = dom BINDING_INFO →
  (∀ action b, b ∈ bindings_of m action →
               accelerator_parse (accelerator_name b.1 b.2) = b) →
  ∃ m1 m2,
    save m = Ok tt m1 ∧
    new_manager (conf_file m1) logged = Ok tt m2 ∧
    _action_to_bindings m2 = _action_to_bindings m.
Proof.
  intros Hdom Hvalid. rewrite save_eq. eexists _, _. split; [done|].
  rewrite new_manager_eq. split; [done|].
  apply map_eq. intros action.
  pose proof (new_manager_bindings (Some (saved_document m)) logged action)
    as Hload.
  rewrite new_manager_eq in Hload. simpl in Hload. simpl. rewrite Hload.
  clear Hload. case_decide as Hcat.
  - apply elem_of_dom in Hcat. rewrite <- Hdom in Hcat.
    apply elem_of_dom in Hcat as [l Hl]. rewrite Hl. f_equal.
    unfold loaded_bindings, saved_document. rewrite lookup_fmap, Hl. simpl.
    rewrite <- list_fmap_compose.
    rewrite <- (list_fmap_id l) at 2. apply list_fmap_ext.
    intros i b Hb. simpl. apply (Hvalid action).
    unfold bindings_of. rewrite Hl. simpl. by eapply list_elem_of_lookup_2.
  - symmetry. apply not_elem_of_dom. rewrite Hdom.
    by rewrite elem_of_dom.
Qed.

End Persistence.

(** ** Managers reached from the constructor *)

Section Reachable.
Context `{Gtk} `{DictOrder}.
Variable P : binding → Prop.
Hypothesis parse_P : ∀ s, P (accelerator_parse s).
Implicit Types (m : manager) (name : string) (b nb ob : binding).

Lemma valid_action_dom name :
  valid_action name = true ↔ name ∈ dom BINDING_INFO.
Proof. unfold valid_action. by rewrite bool_decide_eq_true, elem_of_dom. Qed.

Lemma catalog_state_constructed m : catalog_state P m → constructed m.
Proof.
  intros (Hdom & _) name Hv. apply elem_of_dom. rewrite Hdom.
  by apply valid_action_dom.
Qed.

Lemma catalog_state_ext m m' :
  _action_to_bindings m' = _action_to_bindings m →
  _binding_to_action m' = _binding_to_action m →
  catalog_state P m → catalog_state P m'.
Proof.
  intros Hb Ha (Hdom & Hown & Hlist). unfold catalog_state.
  rewrite Hb, Ha. split_and!; [done..|].
  intros A b. rewrite (bindings_of_same m m' A Hb). apply Hlist.
Qed.

Lemma catalog_state_touched name m :
  valid_action name = true → catalog_state P m → touched name m = m.
Proof.
  intros Hv Hc. apply touched_constructed.
  by apply (catalog_state_constructed m).
Qed.

Lemma catalog_state_set_bindings name (l : list binding) m :
  valid_action name = true → Forall P l →
  catalog_state P m → catalog_state P (set_bindings (insert name l) m).
Proof.
  intros Hv Hl (Hdom & Hown & Hlist). split_and!.
  - cbn [_action_to_bindings set_bindings]. rewrite dom_insert_L, Hdom.
    apply valid_action_dom in Hv. clear Hdom. revert Hv.
    generalize (dom BINDING_INFO). intros X HX.
    apply set_eq. intros k. rewrite elem_of_union, elem_of_singleton.
    split; [by intros [->|?] | by right].
  - done.
  - intros A b. rewrite bindings_of_set_bindings_insert.
    case_decide; [|apply Hlist]. intros Hin.
    by eapply Forall_forall in Hl.
Qed.

Lemma catalog_state_insert_action b name m :
  valid_action name = true →
  catalog_state P m → catalog_state P (set_actions (insert b name) m).
Proof.
  intros Hv (Hdom & Hown & Hlist). split_and!; [done | | done].
  cbn [_binding_to_action set_actions]. by apply map_Forall_insert_2.
Qed.

Lemma catalog_state_delete_action b m :
  catalog_state P m → catalog_state P (set_actions (delete b) m).
Proof.
  intros (Hdom & Hown & Hlist). split_and!; [done | | done].
  cbn [_binding_to_action set_actions]. by apply map_Forall_delete.
Qed.

Lemma catalog_state_listed m A :
  catalog_state P m → Forall P (bindings_of m A).
Proof. intros (_ & _ & Hlist). apply Forall_forall. apply Hlist. Qed.

Lemma catalog_state_removed m A x l' :
  catalog_state P m → py_remove x (bindings_of m A) = Some l' → Forall P l'.
Proof.
  intros Hc Hrem. apply Forall_forall. intros y Hy.
  pose proof (catalog_state_listed m A Hc) as Hl.
  eapply Forall_forall in Hl; [done|]. by eapply py_remove_elem_of.
Qed.

Lemma register_keycode_catalog_state name kc m :
  valid_action name = true → P kc →
  catalog_state P m → catalog_state P (register_keycode name kc m).
Proof.
  intros Hv Hkc Hc.
  destruct (_binding_to_action m !! kc) as [owner|] eqn:E.
  - destruct (register_keycode_bound name kc m owner E) as (_&Hb&Ha&_).
    by eapply catalog_state_ext.
  - rewrite (register_keycode_unbound _ _ _ E). unfold bindings_append.
    apply catalog_state_set_bindings; [done | |].
    + apply Forall_app. split; [|by apply Forall_singleton].
      rewrite bindings_of_set_actions. by apply catalog_state_listed.
    + by apply catalog_state_insert_action.
Qed.

Lemma register_catalog_state name bindings cb m m' :
  catalog_state P m → register name bindings cb m = Ok tt m' →
  catalog_state P m'.
Proof.
  intros Hc. destruct (valid_action name) eqn:Hv; last first.
  { by rewrite register_invalid. }
  destruct (decide (bindings_of m name = [])) as [He|Hne].
  - rewrite register_unfold_defaults by done. intros [= <-].
    eapply (catalog_state_ext (register_defaults _ _ _)); [done..|].
    apply register_defaults_ind.
    + intros kc m0 (s & -> & _)%list_elem_of_fmap Hc0.
      by apply register_keycode_catalog_state.
    + by rewrite catalog_state_touched.
  - destruct (register_unfold_stored name bindings cb m Hv Hne)
      as (m1 & Hrun & ->). intros [= <-].
    eapply (catalog_state_ext m1); [done..|].
    eapply register_stored_ind; [|exact Hc|exact Hrun].
    intros kc m0 Hin Hc0. apply register_keycode_catalog_state; [done | | done].
    pose proof (catalog_state_listed m0 name Hc0) as Hl.
    by eapply Forall_forall in Hl.
Qed.

Lemma detach_catalog_state nb m m1 :
  catalog_state P m → detach nb m = Ok tt m1 → catalog_state P m1.
Proof.
  intros Hc. rewrite detach_eq.
  destruct (_binding_to_action m !! nb) as [owner|] eqn:Hnb;
    [|by intros [= <-]].
  assert (valid_action owner = true) as Hv.
  { destruct Hc as (_ & Hown & _). by apply (Hown nb). }
  cbv zeta. destruct (py_remove nb (bindings_of m owner)) as [l'|] eqn:Hrem;
    [|done].
  intros [= <-].
  pose proof (catalog_state_delete_action nb m Hc) as Hc1.
  rewrite (catalog_state_touched _ _ Hv Hc1).
  apply catalog_state_set_bindings; [done | | done].
  by eapply catalog_state_removed.
Qed.

Lemma attach_catalog_state name nb old_binding m m1 :
  valid_action name = true → P nb →
  catalog_state P m → attach name nb old_binding m = Ok tt m1 →
  catalog_state P m1.
Proof.
  intros Hv Hnb Hc. destruct (decide (old_binding = ""%string)) as [->|Hold].
  - rewrite attach_append_eq. intros [= <-]. unfold bindings_append.
    apply catalog_state_set_bindings; [done | |].
    + apply Forall_app. split; [|by apply Forall_singleton].
      rewrite bindings_of_set_actions. by apply catalog_state_listed.
    + by apply catalog_state_insert_action.
  - rewrite attach_replace_eq by done. cbv zeta.
    destruct (_binding_to_action m !! accelerator_parse old_binding)
      as [X|] eqn:Hob; [|done].
    destruct (py_index _ _) as [idx|] eqn:Hidx; [|done].
    pose proof Hidx as [Hl _]%py_index_Some.
    destruct (py_pop_insert _ _ _ nb Hl) as (l' & -> & Hins).
    intros [= <-]. rewrite Hins.
    pose proof (catalog_state_insert_action nb name _ Hv
                  (catalog_state_delete_action
                     (accelerator_parse old_binding) m Hc)) as Hc2.
    rewrite (catalog_state_touched _ _ Hv Hc2).
    apply catalog_state_set_bindings; [done | | done].
    apply Forall_insert; [|done]. by apply catalog_state_listed.
Qed.

Lemma edit_accel_catalog_state name new_binding old_binding m r m' :
  catalog_state P m → edit_accel name new_binding old_binding m = Ok r m' →
  catalog_state P m'.
Proof.
  intros Hc. destruct (valid_action name) eqn:Hv; last first.
  { by rewrite edit_accel_invalid. }
  rewrite edit_accel_eq by done.
  destruct (detach _ m) as [[] m1|] eqn:Hd; [|done].
  pose proof (detach_catalog_state _ _ _ Hc Hd) as Hc1.
  destruct (attach _ _ _ m1) as [[] m2|] eqn:Hat; [|done].
  intros [= _ <-]. eapply (catalog_state_ext m2); [done..|].
  by eapply attach_catalog_state.
Qed.

Lemma clear_accel_catalog_state name binding_str m m' :
  catalog_state P m → clear_accel name binding_str m = Ok tt m' →
  catalog_state P m'.
Proof.
  intros Hc. destruct (valid_action name) eqn:Hv; last first.
  { by rewrite clear_accel_invalid. }
  rewrite clear_accel_eq by done. cbv zeta.
  destruct (py_remove _ _) as [l'|] eqn:Hrem; [|done].
  destruct (_binding_to_action m !! accelerator_parse binding_str)
    as [X|] eqn:Hob; [|done].
  intros [= <-].
  eapply (catalog_state_ext (set_actions (delete (accelerator_parse binding_str))
            (set_bindings <[name:=l']> (touched name m)))); [done..|].
  apply catalog_state_delete_action.
  rewrite (catalog_state_touched _ _ Hv Hc).
  apply catalog_state_set_bindings; [done | | done].
  by eapply catalog_state_removed.
Qed.

Lemma run_ops_catalog_state os m m' :
  catalog_state P m → run_ops os m = Some m' → catalog_state P m'.
Proof.
  revert m. induction os as [|o os IH]; intros m Hc; cbn [run_ops].
  { by intros [= <-]. }
  destruct (run_op o m) as [m1|] eqn:E; [|done].
  apply IH. destruct o as [name bindings cb|name nb ob|name bs]; cbn [run_op] in E.
  - destruct (register _ _ _ m) as [[] m2|] eqn:E2; [|done].
    injection E as <-. by eapply register_catalog_state.
  - destruct (edit_accel _ _ _ m) as [r m2|] eqn:E2; [|done].
    injection E as <-. by eapply edit_accel_catalog_state.
  - destruct (clear_accel _ _ m) as [[] m2|] eqn:E2; [|done].
    injection E as <-. by eapply clear_accel_catalog_state.
Qed.

Lemma install_actions_owners action (bs : list binding) m :
  valid_action action = true →
  map_Forall (λ _ A, valid_action A = true) (_binding_to_action m) →
  map_Forall (λ _ A, valid_action A = true)
    (_binding_to_action
       (foldl (λ m0 b, set_actions (insert b action) m0) m bs)).
Proof.
  intros Hv. revert m. induction bs as [|b bs IH]; intros m Hm; cbn [foldl]; [done|].
  apply IH. cbn [_binding_to_action set_actions]. by apply map_Forall_insert_2.
Qed.

Lemma initialize_loop_owners d (keys : list string) m :
  (∀ k, k ∈ keys → valid_action k = true) →
  map_Forall (λ _ A, valid_action A = true) (_binding_to_action m) →
  map_Forall (λ _ A, valid_action A = true)
    (_binding_to_action (foldl (λ m' a, initialize_action d a m') m keys)).
Proof.
  revert m. induction keys as [|k keys IH]; intros m Hkeys Hm; cbn [foldl]; [done|].
  apply IH; [intros k' Hk'; apply Hkeys; by right|].
  unfold initialize_action. destruct (d !! k) as [keynames|]; [|done].
  apply install_actions_owners; [apply Hkeys; left | done].
Qed.

Lemma new_manager_catalog_state file logged :
  catalog_state P (final (new_manager file logged)).
Proof.
  split_and!.
  - apply set_eq. intros name. rewrite !elem_of_dom, new_manager_bindings.
    case_decide as Hc; [by split; eauto|].
    split; [by intros [? ?] | done].
  - rewrite new_manager_eq. cbn [final]. apply initialize_loop_owners.
    + intros k Hk%elem_of_iterkeys. by apply bool_decide_eq_true.
    + apply map_Forall_empty.
  - intros A b. unfold bindings_of. rewrite new_manager_bindings.
    case_decide; cbn [default]; [|by intros ?%elem_of_nil].
    unfold loaded_bindings. destruct (default ∅ file !! A) as [keynames|].
    + by intros (s & -> & _)%list_elem_of_fmap.
    + by intros ?%elem_of_nil.
Qed.

(** Every manager reached from the constructor by successful calls is a
    catalog state. *)
Lemma reachable_catalog_state file logged os m :
  run_ops os (final (new_manager file logged)) = Some m →
  catalog_state P m.
Proof. apply run_ops_catalog_state, new_manager_catalog_state. Qed.

End Reachable.

Section ReachableConditions.
Context `{Gtk} `{DictOrder}.

(** The managers that calls reach are those the round trip is stated
    for, when GTK writes every binding it parses in a form it parses
    back. *)
Lemma reachable_round_trip_conditions file logged os m :
  (∀ s, let b := accelerator_parse s in
        accelerator_parse (accelerator_name b.1 b.2) = b) →
  run_ops os (final (new_manager file logged)) = Some m →
  dom (_action_to_bindings m) = dom BINDING_INFO ∧
  ∀ action b, b ∈ bindings_of m action →
              accelerator_parse (accelerator_name b.1 b.2) = b.
Proof.
  intros Hlaw Hrun.
  destruct (reachable_catalog_state
              (λ b, accelerator_parse (accelerator_name b.1 b.2) = b)
              Hlaw file logged os m Hrun) as (Hdom & _ & Hlist).
  done.
Qed.

(** A manager reached from the constructor is a constructed one. *)
Lemma reachable_constructed file logged os m :
  run_ops os (final (new_manager file logged)) = Some m → constructed m.
Proof.
  intros Hrun. apply (catalog_state_constructed (λ _, True)).
  by eapply reachable_catalog_state.
Qed.

End ReachableConditions.

(** ** The GTK fragment writes what it parses *)

Section FragmentLaw.
Import GtkFragment.

Lemma masks_lor mods mask :
  mods ∈ masks → mask ∈ [GDK_SHIFT_MASK; GDK_CONTROL_MASK; GDK_MOD1_MASK] →
  Z.lor mods mask ∈ masks.
Proof.
  intros Hmods Hmask.
  apply list_elem_of_In in Hmods. apply list_elem_of_In in Hmask.
  simpl in Hmods, Hmask.
  repeat (destruct Hmods as [<-|Hmods]);
    repeat (destruct Hmask as [<-|Hmask]); try done; decide_now.
Qed.

Lemma keyval_from_name_range s :
  keyval_from_name s = 0 ∨ keyval_from_name s ∈ keyvals.*2.
Proof.
  unfold keyval_from_name.
  destruct (find _ keyvals) as [e|] eqn:E; [|by left].
  right. change (e.2 ∈ keyvals.*2). apply find_some in E as [Hin _].
  apply list_elem_of_fmap. exists e. split; [done|].
  by apply list_elem_of_In.
Qed.

Lemma parse_key_range s mods :
  mods ∈ masks →
  (let keyval := keyval_from_name s in
   if decide (keyval = 0) then (0, 0) else (keyval, mods)) ∈ bindings.
Proof.
  intros Hm. cbv zeta. case_decide as Hz; [left|]. right.
  destruct (keyval_from_name_range s) as [?|Hk]; [done|].
  apply list_elem_of_bind. exists (keyval_from_name s). split; [|done].
  apply list_elem_of_bind. exists mods. split; [left | done].
Qed.

Lemma parse_from_range fuel s mods :
  mods ∈ masks → parse_from fuel s mods ∈ bindings.
Proof.
  revert s mods. induction fuel as [|fuel IH]; intros s mods Hm.
  - by apply parse_key_range.
  - cbn [parse_from].
    destruct (strip_prefix "<Shift>" s) as [s1|];
      [apply IH, masks_lor; [done | decide_now]|].
    destruct (strip_prefix "<Control>" s) as [s2|];
      [apply IH, masks_lor; [done | decide_now]|].
    destruct (strip_prefix "<Alt>" s) as [s3|];
      [apply IH, masks_lor; [done | decide_now]|].
    by apply parse_key_range.
Qed.

(** Every binding the fragment parses is written by [name] in a form that
    [parse] reads back. *)
Lemma gtk_fragment_round_trip s :
  let b := parse s in parse (name b.1 b.2) = b.
Proof.
  cbv zeta.
  assert (Forall (λ b : binding, parse (name b.1 b.2) = b) bindings) as Hall
    by decide_now.
  eapply Forall_forall in Hall; [exact Hall|].
  apply parse_from_range. decide_now.
Qed.

End FragmentLaw.

(** ** The theorems on concrete managers *)

Section Checks.
Implicit Types (m : manager).

Lemma Raise_inj {A} (e e' : exn) m m' :
  @Raise A e m = Raise e' m' → e = e' ∧ m = m'.
Proof. by intros [= -> ->]. Qed.

Lemma views_agree_check m :
  map_Forall (λ b A, b ∈ bindings_of m A) (_binding_to_action m) →
  map_Forall (λ A l, Forall (λ b, _binding_to_action m !! b = Some A) l)
             (_action_to_bindings m) →
  views_agree m.
Proof.
  intros H1 H2. split; [exact H1|]. intros A b. unfold bindings_of.
  destruct (_action_to_bindings m !! A) as [l|] eqn:E; simpl.
  - intros Hin. specialize (H2 A l E). by eapply Forall_forall in H2.
  - by intros ?%elem_of_nil.
Qed.

Lemma no_repeats_check m :
  map_Forall (λ _ l, NoDup l) (_action_to_bindings m) → no_repeats m.
Proof.
  intros Hall A. unfold bindings_of.
  destruct (_action_to_bindings m !! A) as [l|] eqn:E; simpl.
  - by apply (Hall A).
  - apply NoDup_nil_2.
Qed.

Lemma constructed_check m :
  map_Forall (λ name _, is_Some (_action_to_bindings m !! name)) BINDING_INFO →
  constructed m.
Proof.
  intros Hall name [i Hi]%bool_decide_eq_true. by apply (Hall name i).
Qed.

Lemma listed_check (P : string → binding → Prop) m :
  map_Forall (λ A l, Forall (P A) l) (_action_to_bindings m) →
  ∀ A b, b ∈ bindings_of m A → P A b.
Proof.
  intros Hall A b. unfold bindings_of.
  destruct (_action_to_bindings m !! A) as [l|] eqn:E; simpl.
  - intros Hin. specialize (Hall A l E). by eapply Forall_forall in Hall.
  - by intros ?%elem_of_nil.
Qed.

End Checks.

Section Examples.
Import Scenario.
Local Existing Instance gtk_fragment.
Local Existing Instance listed_order.

(** The scenario managers are what the calls return. *)
Lemma scenario_calls :
  new_manager None [] = Ok tt fresh ∧
  register "zoom in" ["<Control>equal"; "<Control>KP_Add"]%string seven fresh
    = Ok tt zoom ∧
  register "osd panel" ["a"]%string first_arg zoom = Ok tt zoom_osd ∧
  new_manager (Some conflict_doc) [] = Ok tt loaded ∧
  clear_accel "zoom in" "<Control>plus" loaded = Ok tt loaded_cleared ∧
  new_manager (Some repeat_doc) [] = Ok tt repeated.
Proof. compute_all. Qed.

(** C1, counterexample: ["zoom out"] registers with a default that
    ["zoom in"] owns; the owner stays and the warnings are logged, but the
    binding is not in the list of ["zoom out"]. *)
Lemma register_conflict_default_not_listed :
  valid_action "zoom out" = true ∧
  (61, 4) ∈ adopted zoom "zoom out" ["<Control>equal"; "<Control>minus"]%string ∧
  _binding_to_action zoom !! (61, 4) = Some "zoom in"%string ∧
  register "zoom out" ["<Control>equal"; "<Control>minus"]%string seven zoom
    = Ok tt zoom_both ∧
  _binding_to_action zoom_both !! (61, 4) = Some "zoom in"%string ∧
  bindings_of zoom_both "zoom out" = [(45, 4)] ∧
  (61, 4) ∉ bindings_of zoom_both "zoom out".
Proof.
  compute_all.
Qed.

(** C1, witness: the same call; the owner stays, the warnings are logged,
    and the list of ["zoom out"] holds the binding no more than before. *)
Lemma register_conflict_first_claim_wins_witness :
  ∃ m' new,
    register "zoom out" ["<Control>equal"; "<Control>minus"]%string seven zoom
      = Ok tt m' ∧
    _binding_to_action m' !! (61, 4) = Some "zoom in"%string ∧
    log_records m' = log_records zoom ++ new ∧
    WarnOverrides "zoom out" ∈ new ∧ WarnBinding (61, 4) "zoom in" ∈ new ∧
    ((61, 4) ∈ bindings_of m' "zoom out" ↔ (61, 4) ∈ bindings_of zoom "zoom out").
Proof.
  apply (register_conflict_first_claim_wins "zoom out"
           ["<Control>equal"; "<Control>minus"]%string seven zoom
           (61, 4) "zoom in").
  - vm_compute. reflexivity.
  - decide_now.
  - vm_compute. reflexivity.
  - decide_now.
Defined.

(** C2, counterexample: in the manager loaded from a file, before any
    [register], the event of the loaded binding finds its entry in the
    first lookup, and the same key under NumLock finds it in the scan;
    both calls raise [KeyError], nothing is returned and no signal is
    stopped. *)
Lemma execute_match_without_callback_raises :
  _binding_to_action loaded !! (43, 4) = Some "zoom in"%string ∧
  _action_to_callback loaded !! "zoom in"%string = None ∧
  execute (43, 4) loaded = Raise KeyError loaded ∧
  _binding_to_action loaded !! (43, 20) = None ∧
  execute (43, 20) loaded = Raise KeyError loaded ∧
  _window loaded = [].
Proof. compute_all. Qed.

(** C2, witness: an exact entry, an entry reached with NumLock's bit set
    next to Control, and the unmodified key reached under NumLock. *)
Lemma execute_three_tiers_witness :
  (∃ m', execute (61, 4) zoom_osd = Ok (PyInt 7) m' ∧
         key_press_stopped zoom_osd m') ∧
  (∃ m', execute (61, 20) zoom_osd = Ok (PyInt 7) m' ∧
         key_press_stopped zoom_osd m') ∧
  (∃ m', execute (97, 16) zoom_osd = Ok (PyStr "panel") m' ∧
         key_press_stopped zoom_osd m').
Proof.
  assert (_action_to_callback zoom_osd !! "zoom in"%string = Some seven)
    as Ezoom by compute_eq.
  assert (_action_to_callback zoom_osd !! "osd panel"%string = Some first_arg)
    as Eosd by compute_eq.
  split_and!.
  - assert (dispatched zoom_osd "zoom in" (execute (61, 4) zoom_osd)) as Hd.
    { apply (proj1 (execute_three_tiers (61, 4) zoom_osd)). compute_eq. }
    unfold dispatched in Hd. rewrite Ezoom in Hd. exact Hd.
  - destruct (proj1 (proj2 (execute_three_tiers (61, 20) zoom_osd)))
      as (sb & a & Hsb & [Hkey _] & Hd).
    + compute_eq.
    + exists (61, 4), "zoom in"%string. compute_all.
    + apply elem_of_map_to_list, list_elem_of_In in Hsb. vm_compute in Hsb.
      destruct Hsb as [[= <- <-]|[[= <- <-]|[[= <- <-]|[]]]];
        try (vm_compute in Hkey; discriminate Hkey).
      unfold dispatched in Hd. rewrite Ezoom in Hd. exact Hd.
  - assert (dispatched zoom_osd "osd panel" (execute (97, 16) zoom_osd))
      as Hd.
    { apply (proj2 (proj2 (execute_three_tiers (97, 16) zoom_osd)));
        try compute_eq.
      change (map_Forall (λ (sb : binding) (_ : string),
                ¬ (sb.1 = 97 ∧ Z.land sb.2 16 ≠ 0))
                (_binding_to_action zoom_osd)).
      decide_now. }
    unfold dispatched in Hd. rewrite Eosd in Hd. exact Hd.
Defined.

(** C3, counterexample: a configuration file that lists a binding twice
    under ["zoom in"] loads into a manager whose views agree; one
    successful [edit_accel] for ["zoom out"] then leaves the binding in the
    list of ["zoom in"] while it maps to ["zoom out"]. *)
Lemma views_disagree_after_edit_of_repeated_binding :
  views_agree repeated ∧
  run_ops [OpEdit "zoom out" "<Control>plus" ""] repeated
    = Some repeated_edited ∧
  ¬ views_agree repeated_edited.
Proof.
  split_and!.
  - apply views_agree_check; decide_now.
  - compute_eq.
  - intros [_ H2].
    assert ((43, 4) ∈ bindings_of repeated_edited "zoom in") as Hin
      by decide_now.
    apply H2 in Hin. vm_compute in Hin. discriminate Hin.
Qed.

(** C3, witness: a register, an edit and a clear on [zoom]. *)
Lemma views_agree_after_successful_calls_witness :
  run_ops session zoom = Some after_session ∧
  views_agree after_session ∧ no_repeats after_session.
Proof.
  split; [compute_eq|].
  apply (views_agree_after_successful_calls session zoom after_session).
  - apply views_agree_check; decide_now.
  - apply no_repeats_check. decide_now.
  - vm_compute. reflexivity.
Defined.

(** C4, witness: the manager saved by the edit of ["zoom in"] is loaded
    back with the same lists. *)
Lemma save_then_load_round_trip_witness :
  ∃ m1 m2,
    save zoom_edited = Ok tt m1 ∧
    new_manager (conf_file m1) [] = Ok tt m2 ∧
    _action_to_bindings m2 = _action_to_bindings zoom_edited.
Proof.
  apply (save_then_load_round_trip zoom_edited []).
  - decide_now.
  - apply (listed_check
             (λ _ b, accelerator_parse (accelerator_name b.1 b.2) = b)).
    decide_now.
Defined.

(** With the fragment, the conditions of the round trip hold after any
    successful calls on any constructed manager. *)
Lemma fragment_round_trip_conditions file logged os m :
  run_ops os (final (new_manager file logged)) = Some m →
  dom (_action_to_bindings m) = dom BINDING_INFO ∧
  ∀ action b, b ∈ bindings_of m action →
              accelerator_parse (accelerator_name b.1 b.2) = b.
Proof.
  apply reachable_round_trip_conditions.
  apply gtk_fragment_round_trip.
Qed.

(** C5, counterexample: [get_bindings_for_action] on a name outside the
    catalog returns the empty list, and the manager now has an entry for
    that name. *)
Lemma unknown_action_accepted_by_lookup :
  valid_action "nonexistent action" = false ∧
  get_bindings_for_action "nonexistent action" fresh = Ok [] fresh_looked_up ∧
  _action_to_bindings fresh !! "nonexistent action"%string = None ∧
  _action_to_bindings fresh_looked_up !! "nonexistent action"%string = Some [].
Proof. compute_all. Qed.

(** C5, witness: the three editing calls on the same name. *)
Lemma unknown_action_rejected_by_editing_calls_witness :
  (∀ bindings cb,
     register "nonexistent action" bindings cb fresh
     = Raise AssertionError fresh) ∧
  (∀ new_binding old_binding,
     edit_accel "nonexistent action" new_binding old_binding fresh
     = Raise AssertionError fresh) ∧
  (∀ binding_str,
     clear_accel "nonexistent action" binding_str fresh
     = Raise AssertionError fresh) ∧
  (∃ m', get_bindings_for_action "nonexistent action" fresh
         = Ok (bindings_of fresh "nonexistent action") m').
Proof.
  apply (unknown_action_rejected_by_editing_calls "nonexistent action" fresh).
  vm_compute. reflexivity.
Defined.



(** C7, counterexample: ["zoom in"] lists [<Control>equal] and, at index
    1, [<Control>KP_Add]; editing the latter into the former leaves a list
    of one element, so nothing is at index 1. *)
Lemma edit_accel_to_own_binding_shortens_list :
  valid_action "zoom in" = true ∧
  bindings_of zoom "zoom in" = [(61, 4); (65451, 4)] ∧
  accelerator_parse "<Control>equal" = (61, 4) ∧
  accelerator_parse "<Control>KP_Add" = (65451, 4) ∧
  edit_accel "zoom in" "<Control>equal" "<Control>KP_Add" zoom
    = Ok (Some "zoom in"%string) zoom_merged ∧
  bindings_of zoom_merged "zoom in" = [(61, 4)] ∧
  bindings_of zoom_merged "zoom in"
    ≠ <[1%nat := (61, 4)]> (bindings_of zoom "zoom in").
Proof. compute_all. Qed.

(** C7, witness: [<Control>plus] takes the place of [<Control>equal] at
    index 0 and [<Control>KP_Add] stays at index 1. *)
Lemma edit_accel_replaces_in_place_witness :
  ∃ m',
    edit_accel "zoom in" "<Control>plus" "<Control>equal" zoom
    = Ok (_binding_to_action zoom !! accelerator_parse "<Control>plus") m' ∧
    bindings_of m' "zoom in"
    = <[0%nat := accelerator_parse "<Control>plus"]> (bindings_of zoom "zoom in") ∧
    _binding_to_action m' !! accelerator_parse "<Control>plus"
    = Some "zoom in"%string ∧
    _binding_to_action m' !! accelerator_parse "<Control>equal" = None.
Proof.
  apply (edit_accel_replaces_in_place
           "zoom in" "<Control>plus" "<Control>equal" zoom 0).
  - vm_compute. reflexivity.
  - decide_now.
  - vm_compute. reflexivity.
  - intros j Hj. lia.
  - decide_now.
  - decide_now.
  - intros owner Hown. vm_compute in Hown. discriminate Hown.
Defined.

(** C8, counterexample: in the manager loaded from a file that gives one
    binding to two actions, once the owner's binding is cleared,
    [register] for the other action changes both views. *)
Lemma register_changes_stored_bindings :
  valid_action "zoom out" = true ∧
  bindings_of loaded_cleared "zoom out" = [(43, 4)] ∧
  register "zoom out" [] seven loaded_cleared = Ok tt loaded_registered ∧
  bindings_of loaded_registered "zoom out" = [(43, 4); (43, 4)] ∧
  _binding_to_action loaded_cleared !! (43, 4) = None ∧
  _binding_to_action loaded_registered !! (43, 4) = Some "zoom out"%string.
Proof. compute_all. Qed.

(** C8, witness: ["zoom in"] registers again on [zoom], with another
    default and another callback. *)
Lemma register_keeps_stored_bindings_witness :
  ∃ m', register "zoom in" ["<Control>minus"]%string first_arg zoom = Ok tt m' ∧
        _action_to_bindings m' = _action_to_bindings zoom ∧
        _binding_to_action m' = _binding_to_action zoom ∧
        _action_to_callback m'
        = <["zoom in"%string := first_arg]> (_action_to_callback zoom) ∧
        _window m' = _window zoom ∧
        conf_file m' = conf_file zoom.
Proof.
  apply (register_keeps_stored_bindings
           "zoom in" ["<Control>minus"]%string first_arg zoom).
  - vm_compute. reflexivity.
  - decide_now.
  - apply Forall_forall. decide_now.
Defined.

(** C9, witness: the key [z] has no entry of any kind. *)
Lemma execute_no_match_witness :
  execute (122, 0) zoom_osd = Ok PyNone zoom_osd.
Proof.
  apply (execute_no_match (122, 0) zoom_osd).
  - vm_compute. reflexivity.
  - change (map_Forall (λ (sb : binding) (_ : string),
              ¬ (sb.1 = 122 ∧ Z.land sb.2 0 ≠ 0))
              (_binding_to_action zoom_osd)).
    decide_now.
  - vm_compute. reflexivity.
Defined.

(** C10, counterexample: after a failed edit has left [<Control>plus]
    mapped to ["zoom out"] without being in its list, an edit for
    ["zoom in"] with that new binding and an old binding that is no key
    raises [ValueError] out of [list.remove]: the entry is deleted, and
    no list has changed. *)
Lemma edit_accel_unlisted_new_fails_in_remove :
  edit_accel "zoom out" "<Control>plus" "<Control>equal" zoom_both
    = Raise ValueError zoom_swapped ∧
  valid_action "zoom in" = true ∧
  accelerator_parse "<Control>plus" = (43, 4) ∧
  _binding_to_action zoom_swapped !! accelerator_parse "<Alt>z" = None ∧
  _binding_to_action zoom_swapped !! (43, 4) = Some "zoom out"%string ∧
  ((43, 4) ∉ bindings_of zoom_swapped "zoom out") ∧
  edit_accel "zoom in" "<Control>plus" "<Alt>z" zoom_swapped
    = Raise ValueError zoom_swapped_failed ∧
  _binding_to_action zoom_swapped_failed !! (43, 4) = None ∧
  _action_to_bindings zoom_swapped_failed = _action_to_bindings zoom_swapped.
Proof. compute_all. Qed.

(** C10, witness: ["zoom out"] asks to replace [<Control>minus], which
    nobody has, by [<Control>equal], which ["zoom in"] has. *)
Lemma edit_accel_unbound_old_fails_half_way_witness :
  edit_accel "zoom out" "<Control>equal" "<Control>minus" zoom
    = Raise KeyError zoom_failed ∧
  conf_file zoom_failed = conf_file zoom ∧
  _binding_to_action zoom_failed = delete (61, 4) (_binding_to_action zoom) ∧
  py_remove (61, 4) (bindings_of zoom "zoom in")
    = Some (bindings_of zoom_failed "zoom in") ∧
  bindings_of zoom_failed "zoom in" = [(65451, 4)] ∧
  zoom_failed ≠ zoom.
Proof.
  destruct (edit_accel_unbound_old_fails_half_way
              "zoom out" "<Control>equal" "<Control>minus" zoom)
    as (m' & Hrun & Hconf & _ & Hown).
  - compute_eq.
  - decide_now.
  - compute_eq.
  - intros owner Ho.
    assert (owner = "zoom in"%string) as ->
      by (vm_compute in Ho; congruence).
    decide_now.
  - destruct (Hown "zoom in"%string) as (Hact & Hlist & _ & Hne).
    { compute_eq. }
    assert (edit_accel "zoom out" "<Control>equal" "<Control>minus" zoom
            = Raise KeyError zoom_failed) as Hfail by compute_eq.
    rewrite Hfail in Hrun. apply Raise_inj in Hrun as [_ <-].
    split_and!; [exact Hfail | exact Hconf | exact Hact | exact Hlist
                | compute_eq | exact Hne].
Defined.

End Examples.

(** * Further properties of the methods *)

(** ** [edit_accel] without an old binding, and [clear_accel] *)

Section EditClear.
Context `{Gtk} `{DictOrder}.
Implicit Types (m : manager) (name : string) (b nb ob : binding).

Lemma py_remove_app_fresh x (l : list binding) :
  x ∉ l → py_remove x (l ++ [x]) = Some l.
Proof.
  induction l as [|y l IH]; intros Hnot; simpl.
  - by rewrite decide_True.
  - apply not_elem_of_cons in Hnot as [Hne Hnot].
    rewrite decide_False by done. by rewrite IH.
Qed.

Lemma without_in x l l' : py_remove x l = Some l' → without x l = l'.
Proof. unfold without. by intros ->. Qed.

(** X1: [edit_accel] with an empty old binding adds the new binding to the
    action.  The binding is first taken from the action that owned it,
    if any (from the first place it has in that action's list); it is then
    put at the end of the list of [name] and mapped to [name].  The call
    returns the previous owner and writes the configuration file. *)
Theorem edit_accel_appends name new_binding m :
  let nb := accelerator_parse new_binding in
  valid_action name = true →
  (∀ owner, _binding_to_action m !! nb = Some owner →
            nb ∈ bindings_of m owner) →
  ∃ m',
    edit_accel name new_binding "" m = Ok (_binding_to_action m !! nb) m' ∧
    _binding_to_action m' = <[nb := name]> (_binding_to_action m) ∧
    (∀ A, bindings_of m' A
          = let l := if decide (_binding_to_action m !! nb = Some A)
                     then without nb (bindings_of m A)
                     else bindings_of m A in
            if decide (A = name) then l ++ [nb] else l) ∧
    _action_to_callback m' = _action_to_callback m ∧
    conf_file m' = Some (saved_document m').
Proof.
  intros nb Hv Hown. rewrite edit_accel_eq by done. fold nb.
  rewrite detach_eq.
  destruct (_binding_to_action m !! nb) as [owner|] eqn:Hnb.
  - destruct (py_remove_is_Some _ _ (Hown owner eq_refl)) as [l' Hl'].
    cbv zeta. rewrite Hl', attach_append_eq.
    eexists. split; [done|]. split_and!; try done.
    + simpl. rewrite actions_touched. simpl. apply insert_delete_eq.
    + intros A. rewrite bindings_of_write_conf, bindings_of_append.
      rewrite !bindings_of_set_actions, !bindings_of_set_bindings_insert.
      rewrite bindings_of_touched, bindings_of_set_actions.
      cbv zeta.
      destruct (decide (A = owner)) as [->|Hao].
      * rewrite (decide_True (P := Some owner = Some owner)) by done.
        rewrite (without_in _ _ _ Hl').
        destruct (decide (owner = name)) as [<-|Hon]; [|done].
        by rewrite decide_True.
      * rewrite (decide_False (P := Some owner = Some A)) by congruence.
        destruct (decide (A = name)) as [->|HA].
        -- rewrite decide_False by done.
           by rewrite ?bindings_of_touched, ?bindings_of_set_actions.
        -- by rewrite ?bindings_of_touched, ?bindings_of_set_actions.
    + simpl. unfold touched. by case_match.
  - rewrite attach_append_eq. eexists. split; [done|]. split_and!; try done.
    intros A. rewrite bindings_of_write_conf, bindings_of_append.
    rewrite bindings_of_set_actions. cbv zeta.
    rewrite (decide_False (P := None = Some A)) by done.
    by destruct (decide (A = name)) as [->|HA].
Qed.

(** X2: [clear_accel] for a binding that the action lists and that is a
    key of [_binding_to_action] removes its first occurrence from the
    action's list, deletes its entry in [_binding_to_action] whichever
    action that entry names, leaves the other lists and the callbacks
    alone, and writes the configuration file. *)
Theorem clear_accel_removes name binding_str m :
  let ob := accelerator_parse binding_str in
  valid_action name = true →
  ob ∈ bindings_of m name →
  is_Some (_binding_to_action m !! ob) →
  ∃ m',
    clear_accel name binding_str m = Ok tt m' ∧
    bindings_of m' name = without ob (bindings_of m name) ∧
    (∀ A, A ≠ name → bindings_of m' A = bindings_of m A) ∧
    _binding_to_action m' = delete ob (_binding_to_action m) ∧
    _action_to_callback m' = _action_to_callback m ∧
    conf_file m' = Some (saved_document m').
Proof.
  intros ob Hv Hin [X Hob]. rewrite clear_accel_eq by done. cbv zeta. fold ob.
  destruct (py_remove_is_Some _ _ Hin) as [l' Hl']. rewrite Hl', Hob.
  eexists. split; [done|]. split_and!; try done.
  - rewrite bindings_of_write_conf, bindings_of_set_actions.
    rewrite bindings_of_set_bindings_insert, decide_True by done.
    by rewrite (without_in _ _ _ Hl').
  - intros A HA. rewrite bindings_of_write_conf, bindings_of_set_actions.
    rewrite bindings_of_set_bindings_insert, decide_False by done.
    apply bindings_of_touched.
  - simpl. by rewrite actions_touched.
  - simpl. unfold touched. by case_match.
Qed.

(** X3: adding a binding that nobody has to an action of a constructed
    manager and clearing it again gives back both views and the callbacks
    as they were. *)
Theorem edit_then_clear_restores name new_binding m :
  let nb := accelerator_parse new_binding in
  constructed m →
  valid_action name = true →
  _binding_to_action m !! nb = None →
  nb ∉ bindings_of m name →
  ∃ m1 m2,
    edit_accel name new_binding "" m = Ok None m1 ∧
    clear_accel name new_binding m1 = Ok tt m2 ∧
    _action_to_bindings m2 = _action_to_bindings m ∧
    _binding_to_action m2 = _binding_to_action m ∧
    _action_to_callback m2 = _action_to_callback m.
Proof.
  intros nb Hc Hv Hnb Hnot.
  destruct (Hc name Hv) as [l Hl].
  assert (bindings_of m name = l) as Hbl by (unfold bindings_of; by rewrite Hl).
  rewrite edit_accel_eq by done. fold nb. rewrite detach_eq, Hnb.
  rewrite attach_append_eq. eexists _, _. split; [done|].
  rewrite clear_accel_eq by done. cbv zeta. fold nb.
  rewrite bindings_of_write_conf, bindings_of_append, decide_True by done.
  rewrite bindings_of_set_actions, Hbl.
  rewrite py_remove_app_fresh by (by rewrite <- Hbl).
  cbn [_binding_to_action write_conf bindings_append set_bindings set_actions].
  rewrite lookup_insert_eq. split; [done|]. split_and!.
  - cbn. unfold touched. cbn. rewrite lookup_insert_eq. cbn.
    rewrite !insert_insert_eq. by apply insert_id.
  - cbn. unfold touched. cbn. rewrite lookup_insert_eq. cbn.
    by apply delete_insert_id.
  - cbn. unfold touched. cbn. by rewrite lookup_insert_eq.
Qed.

(** X4: [clear_accel] for a binding that the action lists but that is no
    key of [_binding_to_action] raises [KeyError] after the binding was
    removed from the list: the list is shorter, nothing is saved. *)
Theorem clear_accel_unmapped_fails_after_removal name binding_str m :
  let ob := accelerator_parse binding_str in
  valid_action name = true →
  ob ∈ bindings_of m name →
  _binding_to_action m !! ob = None →
  ∃ m',
    clear_accel name binding_str m = Raise KeyError m' ∧
    bindings_of m' name = without ob (bindings_of m name) ∧
    (∀ A, A ≠ name → bindings_of m' A = bindings_of m A) ∧
    _binding_to_action m' = _binding_to_action m ∧
    conf_file m' = conf_file m.
Proof.
  intros ob Hv Hin Hob. rewrite clear_accel_eq by done. cbv zeta. fold ob.
  destruct (py_remove_is_Some _ _ Hin) as [l' Hl']. rewrite Hl', Hob.
  eexists. split; [done|]. split_and!.
  - rewrite bindings_of_set_bindings_insert, decide_True by done.
    by rewrite (without_in _ _ _ Hl').
  - intros A HA. rewrite bindings_of_set_bindings_insert, decide_False by done.
    apply bindings_of_touched.
  - simpl. by rewrite actions_touched.
  - simpl. unfold touched. by case_match.
Qed.

(** X5: [edit_accel] with an old binding that is a key of
    [_binding_to_action] but is not in the list of [name] (it belongs to
    another action) raises [ValueError] out of [list.index], after the
    old binding's entry was deleted and the new binding was mapped to
    [name]; no list is changed and nothing is saved. *)
Theorem edit_accel_foreign_old_fails_after_swap name new_binding old_binding m :
  let nb := accelerator_parse new_binding in
  let ob := accelerator_parse old_binding in
  valid_action name = true →
  old_binding ≠ ""%string →
  _binding_to_action m !! nb = None →
  is_Some (_binding_to_action m !! ob) →
  ob ∉ bindings_of m name →
  ∃ m',
    edit_accel name new_binding old_binding m = Raise ValueError m' ∧
    _binding_to_action m' = <[nb := name]> (delete ob (_binding_to_action m)) ∧
    (∀ A, bindings_of m' A = bindings_of m A) ∧
    conf_file m' = conf_file m.
Proof.
  intros nb ob Hv Hold Hnb [X Hob] Hnot.
  rewrite edit_accel_eq by done. fold nb. rewrite detach_eq, Hnb.
  rewrite attach_replace_eq by done. cbv zeta. fold ob. rewrite Hob.
  apply py_index_None in Hnot. rewrite Hnot.
  eexists. split; [done|]. split_and!.
  - by rewrite actions_touched.
  - intros A. by rewrite bindings_of_touched, !bindings_of_set_actions.
  - unfold touched. by case_match.
Qed.

End EditClear.

(** ** [register]: what it leaves alone, what it adds, and calling it twice *)

Section RegisterMore.
Context `{Gtk} `{DictOrder}.
Implicit Types (m : manager) (name : string) (b kc : binding).

Lemma register_keycode_step name kc m :
  ∃ ext,
    bindings_of (register_keycode name kc m) name = bindings_of m name ++ ext ∧
    (∀ A, A ≠ name →
          bindings_of (register_keycode name kc m) A = bindings_of m A) ∧
    (∀ b, _binding_to_action m !! b = None →
          _binding_to_action (register_keycode name kc m) !! b = None ∨
          (_binding_to_action (register_keycode name kc m) !! b = Some name ∧
           b ∈ ext)).
Proof.
  destruct (_binding_to_action m !! kc) as [owner|] eqn:Hkc.
  - destruct (register_keycode_bound name kc m owner Hkc) as (_&Hb&Ha&_).
    exists []. rewrite app_nil_r, Ha. split_and!.
    + by apply bindings_of_same.
    + intros. by apply bindings_of_same.
    + intros b Hb0. by left.
  - exists [kc]. split_and!.
    + rewrite register_keycode_bindings. by rewrite decide_True.
    + intros A HA. rewrite register_keycode_bindings.
      rewrite decide_False; [done | by intros [? _]].
    + intros b Hb0. rewrite (register_keycode_unbound _ _ _ Hkc). simpl.
      destruct (decide (kc = b)) as [->|Hne].
      * right. rewrite lookup_insert_eq. split; [done | left].
      * left. by rewrite lookup_insert_ne.
Qed.

(** X6: [register] for a valid name returns, and it only ever adds to the
    views: the list of [name] is extended at its end, the other lists are
    as they were, every binding that had an owner keeps it, a binding
    that gets an owner gets [name] and is among those added to its list,
    the callback of [name] is replaced and no other, and neither the
    window nor the configuration file is touched. *)
Theorem register_only_adds name bindings cb m :
  valid_action name = true →
  ∃ m' ext,
    register name bindings cb m = Ok tt m' ∧
    bindings_of m' name = bindings_of m name ++ ext ∧
    (∀ A, A ≠ name → bindings_of m' A = bindings_of m A) ∧
    (∀ b A, _binding_to_action m !! b = Some A →
            _binding_to_action m' !! b = Some A) ∧
    (∀ b, _binding_to_action m !! b = None →
          _binding_to_action m' !! b = None ∨
          (_binding_to_action m' !! b = Some name ∧ b ∈ ext)) ∧
    _action_to_callback m' = <[name := cb]> (_action_to_callback m) ∧
    _window m' = _window m ∧
    conf_file m' = conf_file m.
Proof.
  intros Hv.
  set (P := λ m0 : manager, ∃ ext,
    bindings_of m0 name = bindings_of m name ++ ext ∧
    (∀ A, A ≠ name → bindings_of m0 A = bindings_of m A) ∧
    (∀ b A, _binding_to_action m !! b = Some A →
            _binding_to_action m0 !! b = Some A) ∧
    (∀ b, _binding_to_action m !! b = None →
          _binding_to_action m0 !! b = None ∨
          (_binding_to_action m0 !! b = Some name ∧ b ∈ ext)) ∧
    _action_to_callback m0 = _action_to_callback m ∧
    _window m0 = _window m ∧
    conf_file m0 = conf_file m).
  assert (∀ kc m0, P m0 → P (register_keycode name kc m0)) as Hstep.
  { intros kc m0 (ext & Hl & Hother & Hmono & Hnew & Hcb & Hw & Hf).
    destruct (register_keycode_step name kc m0) as (ext' & Hl' & Hother' & Hnew').
    destruct (register_keycode_frame name kc m0) as (Hcb' & Hw' & Hf').
    exists (ext ++ ext'). split_and!.
    - by rewrite Hl', Hl, app_assoc.
    - intros A HA. by rewrite Hother', Hother.
    - intros b A Hb. by apply register_keycode_actions_mono, Hmono.
    - intros b Hb. destruct (Hnew b Hb) as [Hn|[Hs Hin]].
      + destruct (Hnew' b Hn) as [?|[? ?]]; [by left|].
        right. split; [done|]. apply elem_of_app. by right.
      + right. split; [by apply register_keycode_actions_mono|].
        apply elem_of_app. by left.
    - congruence.
    - congruence.
    - congruence. }
  assert (P (touched name m)) as Hbase.
  { exists []. rewrite app_nil_r, actions_touched. split_and!.
    - apply bindings_of_touched.
    - intros. apply bindings_of_touched.
    - done.
    - intros. by left.
    - unfold touched. by case_match.
    - unfold touched. by case_match.
    - unfold touched. by case_match. }
  destruct (decide (bindings_of m name = [])) as [He|Hne].
  - rewrite register_unfold_defaults by done.
    destruct (register_defaults_ind P name (accelerator_parse <$> bindings)
                (touched name m) (λ kc m0 _, Hstep kc m0) Hbase)
      as (ext & Hl & Hother & Hmono & Hnew & Hcb & Hw & Hf).
    eexists _, ext. split; [done|]. split_and!; try done.
    simpl. by rewrite Hcb.
  - destruct (register_unfold_stored name bindings cb m Hv Hne)
      as (m1 & Hrun & ->).
    rewrite <- (touched_stored name m Hne) in Hrun.
    destruct (register_stored_ind P _ _ _ _ _
                (λ kc m0 _, Hstep kc m0) Hbase Hrun)
      as (ext & Hl & Hother & Hmono & Hnew & Hcb & Hw & Hf).
    eexists _, ext. split; [done|]. split_and!; try done.
    simpl. by rewrite Hcb.
Qed.

Lemma filter_unbound_insert (d : gmap binding string) kc name
    (l : list binding) :
  kc ∉ l →
  filter (λ x, <[kc := name]> d !! x = None) l
  = filter (λ x, d !! x = None) l.
Proof.
  induction l as [|x l IH]; intros Hnot; [done|].
  apply not_elem_of_cons in Hnot as [Hne Hnot].
  rewrite !filter_cons, lookup_insert_ne by done. by rewrite IH.
Qed.

Lemma register_defaults_fresh name (l : list binding) m :
  NoDup l →
  bindings_of (register_defaults name l m) name
  = bindings_of m name ++ filter (λ kc, _binding_to_action m !! kc = None) l ∧
  ∀ b, _binding_to_action (register_defaults name l m) !! b
       = if decide (b ∈ l ∧ _binding_to_action m !! b = None)
         then Some name else _binding_to_action m !! b.
Proof.
  revert m. induction l as [|kc l IH]; intros m Hnd.
  { split; [by rewrite app_nil_r|]. intros b.
    rewrite decide_False; [done|]. intros [?%elem_of_nil _]. done. }
  apply NoDup_cons in Hnd as [Hkc Hnd].
  change (register_defaults name (kc :: l) m)
    with (register_defaults name l (register_keycode name kc m)).
  destruct (IH (register_keycode name kc m) Hnd) as [Hl Ha]. clear IH.
  destruct (_binding_to_action m !! kc) as [owner|] eqn:E.
  - destruct (register_keycode_bound name kc m owner E) as (_&Hb'&Ha'&_).
    rewrite Ha' in Hl, Ha. rewrite (bindings_of_same _ _ _ Hb') in Hl.
    split.
    + rewrite Hl, filter_cons, decide_False; [done | congruence].
    + intros b. rewrite Ha. destruct (decide (b = kc)) as [->|Hne].
      * rewrite !decide_False; [done | | ]; intros [_ ?]; congruence.
      * destruct (decide (b ∈ l ∧ _binding_to_action m !! b = None))
          as [[Hin Hn]|Hno].
        -- rewrite decide_True; [done|]. split; [by right | done].
        -- rewrite decide_False; [done|].
           intros [[?|?]%elem_of_cons ?]; [done | by apply Hno].
  - rewrite (register_keycode_unbound _ _ _ E) in Hl, Ha |- *.
    rewrite bindings_of_append, decide_True in Hl by done.
    rewrite bindings_of_set_actions in Hl. simpl in Hl, Ha.
    rewrite filter_unbound_insert in Hl by done.
    split.
    + rewrite Hl, filter_cons, decide_True by done. by rewrite <- app_assoc.
    + intros b. rewrite Ha. destruct (decide (b = kc)) as [->|Hne].
      * rewrite lookup_insert_eq. rewrite decide_False by (by intros [? _]).
        rewrite decide_True; [done|]. split; [left | done].
      * rewrite lookup_insert_ne by done.
        destruct (decide (b ∈ l ∧ _binding_to_action m !! b = None))
          as [[Hin Hn]|Hno].
        -- rewrite decide_True; [done|]. split; [by right | done].
        -- rewrite decide_False; [done|].
           intros [[?|?]%elem_of_cons ?]; [done | by apply Hno].
Qed.

(** X7: when nothing is on record for the action and the parsed defaults
    are pairwise different, [register] gives the action exactly the
    defaults that had no owner, in the order given, and makes it their
    owner; every other entry of [_binding_to_action] is as it was. *)
Theorem register_seeds_unowned_defaults name bindings cb m :
  valid_action name = true →
  bindings_of m name = [] →
  NoDup (accelerator_parse <$> bindings) →
  ∃ m',
    register name bindings cb m = Ok tt m' ∧
    bindings_of m' name
    = filter (λ kc, _binding_to_action m !! kc = None)
        (accelerator_parse <$> bindings) ∧
    ∀ b, _binding_to_action m' !! b
         = if decide (b ∈ accelerator_parse <$> bindings ∧
                      _binding_to_action m !! b = None)
           then Some name else _binding_to_action m !! b.
Proof.
  intros Hv He Hnd. rewrite register_unfold_defaults by done.
  eexists. split; [done|].
  destruct (register_defaults_fresh name (accelerator_parse <$> bindings)
              (touched name m) Hnd) as [Hl Ha].
  rewrite bindings_of_touched, He, actions_touched in Hl. simpl in Hl.
  rewrite actions_touched in Ha. by split.
Qed.

(** After one round the key code read is a key of [_binding_to_action]. *)
Lemma register_keycode_binds name kc m :
  is_Some (_binding_to_action (register_keycode name kc m) !! kc).
Proof.
  destruct (_binding_to_action m !! kc) as [owner|] eqn:E.
  - exists owner. by apply register_keycode_actions_mono.
  - rewrite (register_keycode_unbound _ _ _ E). simpl.
    rewrite lookup_insert_eq. eauto.
Qed.

Lemma register_keycode_keeps_keys name kc m b :
  is_Some (_binding_to_action m !! b) →
  is_Some (_binding_to_action (register_keycode name kc m) !! b).
Proof. intros [A HA]. exists A. by apply register_keycode_actions_mono. Qed.

(** Both loops leave every key code they have read a key. *)
Lemma register_defaults_binds name (l : list binding) m kc :
  kc ∈ l →
  is_Some (_binding_to_action (register_defaults name l m) !! kc).
Proof.
  revert m. induction l as [|x l IH]; intros m Hin.
  { by apply elem_of_nil in Hin. }
  change (register_defaults name (x :: l) m)
    with (register_defaults name l (register_keycode name x m)).
  destruct (decide (kc ∈ l)) as [Hl|Hnl]; [by apply IH|].
  apply elem_of_cons in Hin as [->|?]; [|done].
  apply (register_defaults_ind
           (λ m0, is_Some (_binding_to_action m0 !! x))).
  - intros. by apply register_keycode_keeps_keys.
  - apply register_keycode_binds.
Qed.

Lemma register_stored_binds bound name i m m' :
  register_stored bound name i m = Some m' →
  (∀ j b, (j < i)%nat → bindings_of m name !! j = Some b →
          is_Some (_binding_to_action m !! b)) →
  ∀ b, b ∈ bindings_of m' name → is_Some (_binding_to_action m' !! b).
Proof.
  revert i m. induction bound as [|bound IH]; intros i m; simpl.
  - destruct (bindings_of m name !! i) eqn:Hi; [done|].
    intros [= <-] Hread b [j Hj]%list_elem_of_lookup.
    apply (Hread j); [|done]. apply lookup_ge_None in Hi.
    apply lookup_lt_Some in Hj. lia.
  - destruct (bindings_of m name !! i) as [kc|] eqn:Hi; last first.
    { intros [= <-] Hread b [j Hj]%list_elem_of_lookup.
      apply (Hread j); [|done]. apply lookup_ge_None in Hi.
      apply lookup_lt_Some in Hj. lia. }
    intros Hrun Hread. apply (IH _ _ Hrun).
    intros j b Hj Hb.
    assert (bindings_of m name !! j = Some b) as Hb0.
    { rewrite register_keycode_bindings in Hb. case_decide; [|done].
      rewrite lookup_app_l in Hb; [done|].
      apply lookup_lt_Some in Hi. lia. }
    destruct (decide (j = i)) as [->|Hne].
    + assert (b = kc) as -> by congruence. apply register_keycode_binds.
    + apply register_keycode_keeps_keys. apply (Hread j); [lia | done].
Qed.

(** Going through key codes that all are keys changes no view. *)
Lemma register_defaults_same name (l : list binding) m :
  (∀ kc, kc ∈ l → is_Some (_binding_to_action m !! kc)) →
  same_registry m (register_defaults name l m).
Proof.
  intros Hkeys.
  apply (register_defaults_ind (same_registry m)); [|apply same_registry_refl].
  intros kc m0 Hin Hsame. pose proof Hsame as (_ & _ & Ha0 & _).
  destruct (Hkeys kc Hin) as [owner Ho]. rewrite <- Ha0 in Ho.
  eapply same_registry_trans; [done|]. by eapply register_keycode_bound.
Qed.

Lemma register_stored_same bound name i m m' :
  (∀ b, b ∈ bindings_of m name → is_Some (_binding_to_action m !! b)) →
  register_stored bound name i m = Some m' →
  same_registry m m'.
Proof.
  intros Hkeys Hrun.
  apply (register_stored_ind (same_registry m) _ _ _ _ _) in Hrun;
    [done | | apply same_registry_refl].
  intros kc m0 Hin Hsame. pose proof Hsame as (_ & Hb0 & Ha0 & _).
  rewrite (bindings_of_same _ _ _ Hb0) in Hin.
  destruct (Hkeys kc Hin) as [owner Ho]. rewrite <- Ha0 in Ho.
  eapply same_registry_trans; [done|]. by eapply register_keycode_bound.
Qed.

(** X8: calling [register] a second time with the same arguments changes
    nothing but the log: both views, the callbacks, the window and the
    configuration file are as the first call left them. *)
Theorem register_twice_is_register_once name bindings cb m :
  valid_action name = true →
  ∃ m1 m2,
    register name bindings cb m = Ok tt m1 ∧
    register name bindings cb m1 = Ok tt m2 ∧
    same_registry m1 m2.
Proof.
  intros Hv.
  (* the first call: every key code it read is a key afterwards *)
  assert (∃ m1, register name bindings cb m = Ok tt m1 ∧
            is_Some (_action_to_bindings m1 !! name) ∧
            _action_to_callback m1 !! name = Some cb ∧
            (∀ b, b ∈ bindings_of m1 name →
                  is_Some (_binding_to_action m1 !! b)) ∧
            (bindings_of m1 name = [] →
             ∀ kc, kc ∈ accelerator_parse <$> bindings →
                   is_Some (_binding_to_action m1 !! kc)))
    as (m1 & -> & Hdom & Hcb & Hlisted & Hdefaults).
  { destruct (decide (bindings_of m name = [])) as [He|Hne].
    - rewrite register_unfold_defaults by done. eexists. split; [done|].
      set (m0 := register_defaults name (accelerator_parse <$> bindings)
                   (touched name m)).
      split_and!.
      + apply (register_defaults_ind
                 (λ m0, is_Some (_action_to_bindings m0 !! name))).
        * intros kc m' _ Hs. unfold register_keycode.
          destruct (_binding_to_action m' !! kc); [by case_decide|].
          simpl. rewrite lookup_insert_eq. eauto.
        * unfold touched. destruct (_action_to_bindings m !! name) eqn:E;
            [by rewrite E|]. simpl. rewrite lookup_insert_eq. eauto.
      + simpl. apply lookup_insert_eq.
      + change (∀ b, b ∈ bindings_of m0 name →
                     is_Some (_binding_to_action m0 !! b)).
        apply (register_defaults_ind
                 (λ m0, ∀ b, b ∈ bindings_of m0 name →
                             is_Some (_binding_to_action m0 !! b))).
        * intros kc m' _ Hs b. rewrite register_keycode_bindings.
          case_decide.
          -- intros [Hb| ->%list_elem_of_singleton]%elem_of_app.
             ++ by apply register_keycode_keeps_keys, Hs.
             ++ apply register_keycode_binds.
          -- intros Hb. by apply register_keycode_keeps_keys, Hs.
        * intros b. rewrite bindings_of_touched, He.
          by intros ?%elem_of_nil.
      + intros _ kc Hkc. by apply register_defaults_binds.
    - destruct (register_unfold_stored name bindings cb m Hv Hne)
        as (m0 & Hrun & ->). eexists. split; [done|]. split_and!.
      + apply (register_stored_ind
                 (λ m0, is_Some (_action_to_bindings m0 !! name)) _ _ _ _ _)
          in Hrun; [done | |].
        * intros kc m' _ Hs. unfold register_keycode.
          destruct (_binding_to_action m' !! kc); [by case_decide|].
          simpl. rewrite lookup_insert_eq. eauto.
        * unfold bindings_of in Hne.
          by destruct (_action_to_bindings m !! name).
      + simpl. apply lookup_insert_eq.
      + apply (register_stored_binds _ _ _ _ _ Hrun). intros j b Hj. lia.
      + intros He. exfalso.
        apply (register_stored_ind
                 (λ m0, bindings_of m0 name ≠ []) _ _ _ _ _) in Hrun;
          [done | | done].
        intros kc m' _ Hs. rewrite register_keycode_bindings.
        case_decide; [|done]. by destruct (bindings_of m' name). }
  (* the second call reads only keys *)
  exists m1.
  assert (touched name m1 = m1) as Ht by (by apply touched_constructed).
  assert (∀ m2, same_registry m1 m2 →
                same_registry m1 (set_callbacks <[name:=cb]> m2)) as Hset.
  { intros m2 (Hc & Hb & Ha & Hw & Hf). split_and!; try done.
    simpl. rewrite Hc. by apply insert_id. }
  destruct (decide (bindings_of m1 name = [])) as [He|Hne].
  - eexists. split; [done|].
    rewrite register_unfold_defaults by done. split; [done|].
    apply Hset. rewrite Ht. apply register_defaults_same. by apply Hdefaults.
  - destruct (register_unfold_stored name bindings cb m1 Hv Hne)
      as (m2 & Hrun & Heq).
    exists (set_callbacks <[name:=cb]> m2). split; [done|]. split; [done|].
    apply Hset. by eapply register_stored_same.
Qed.

(** X9: a default binding that [register] installs is dispatched by
    [execute].  When nothing is on record for the action and one of the
    defaults has no owner, then after [register] the event of that
    default returns the result of the callback on its arguments, and the
    manager it leaves differs only in that [key_press_event] was stopped
    once more on the window. *)
Theorem register_then_execute name bindings cb m s :
  valid_action name = true →
  bindings_of m name = [] →
  s ∈ bindings →
  _binding_to_action m !! accelerator_parse s = None →
  ∃ m' m'',
    register name bindings cb m = Ok tt m' ∧
    execute (accelerator_parse s) m' = Ok (invoke cb) m'' ∧
    key_press_stopped m' m''.
Proof.
  intros Hv He Hs Hfree. rewrite register_unfold_defaults by done.
  eexists _, _. split; [done|].
  set (m0 := register_defaults name (accelerator_parse <$> bindings)
               (touched name m)).
  assert (_binding_to_action m0 !! accelerator_parse s = Some name) as Hown.
  { assert (accelerator_parse s ∈ accelerator_parse <$> bindings) as Hin.
    { apply list_elem_of_fmap. eauto. }
    assert (_binding_to_action (touched name m) !! accelerator_parse s = None)
      as Hfree' by (by rewrite actions_touched).
    unfold m0. clear m0. revert Hin Hfree'.
    generalize (touched name m). generalize (accelerator_parse s).
    generalize (accelerator_parse <$> bindings). clear.
    intros l. induction l as [|x l IH]; intros kc m0 Hin Hfree.
    { by apply elem_of_nil in Hin. }
    change (register_defaults name (x :: l) m0)
      with (register_defaults name l (register_keycode name x m0)).
    destruct (decide (x = kc)) as [->|Hne].
    - apply (register_defaults_ind
               (λ m1, _binding_to_action m1 !! kc = Some name)).
      + intros. by apply register_keycode_actions_mono.
      + rewrite (register_keycode_unbound _ _ _ Hfree). simpl.
        apply lookup_insert_eq.
    - apply IH.
      + apply elem_of_cons in Hin as [?|?]; [congruence | done].
      + destruct (_binding_to_action m0 !! x) as [owner|] eqn:E.
        * by destruct (register_keycode_bound name x m0 owner E)
            as (_&_&->&_).
        * rewrite (register_keycode_unbound _ _ _ E). simpl.
          by rewrite lookup_insert_ne. }
  unfold execute. run_monad.
  cbn [_binding_to_action set_callbacks]. rewrite Hown.
  rewrite run_action_eq. cbn [_action_to_callback set_callbacks].
  rewrite lookup_insert_eq. subst m0. by repeat split.
Qed.

End RegisterMore.

(** ** [execute]: every outcome *)

Section ExecuteMore.
Context `{Gtk} `{DictOrder}.
Implicit Types (m : manager) (kb sb : binding).

(** X10: whatever the event, [execute] either returns [None] and leaves
    the manager as it was, or it has found an entry of
    [_binding_to_action] with the event's key code whose mask is the
    event's mask, shares a bit with it, or is empty; then it raises
    [KeyError] without touching the manager when the entry's action has no
    callback, and otherwise returns what that action's callback returns
    and leaves a manager that differs only in that [key_press_event] was
    stopped once more on the window. *)
Theorem execute_outcomes kb m :
  execute kb m = Ok PyNone m ∨
  ∃ sb a,
    _binding_to_action m !! sb = Some a ∧
    sb.1 = kb.1 ∧
    (sb.2 = kb.2 ∨ Z.land sb.2 kb.2 ≠ 0 ∨ sb.2 = 0) ∧
    dispatched m a (execute kb m).
Proof.
  unfold execute. run_monad.
  destruct (_binding_to_action m !! kb) as [a|] eqn:Hexact.
  { right. exists kb, a.
    split_and!; try done; [by left | apply run_action_dispatched]. }
  destruct (execute_scan (iteritems (_binding_to_action m)) kb)
    as [a|] eqn:Hscan.
  { right. destruct (execute_scan_Some _ _ _ Hscan) as (sb & Hin & Hm).
    apply elem_of_iteritems in Hin. apply fuzzy_match_spec in Hm as [Hk Hl].
    exists sb, a.
    split_and!; try done; [right; by left | apply run_action_dispatched]. }
  destruct (_binding_to_action m !! (kb.1, 0)) as [a|] eqn:Hbare.
  { right. exists (kb.1, 0), a.
    split_and!; try done; [right; by right | apply run_action_dispatched]. }
  by left.
Qed.

End ExecuteMore.

(** ** [_initialize] and the constructor *)

Section InitializeMore.
Context `{Gtk} `{DictOrder}.
Implicit Types (m : manager) (name action : string) (d : document)
  (b : binding).

Lemma loaded_bindings_eq d action :
  loaded_bindings d action = accelerator_parse <$> default [] (d !! action).
Proof. unfold loaded_bindings. by destruct (d !! action). Qed.

Lemma install_actions_lookup action (bs : list binding) m b :
  _binding_to_action
    (foldl (λ m0 b0, set_actions (insert b0 action) m0) m bs) !! b
  = if decide (b ∈ bs) then Some action else _binding_to_action m !! b.
Proof.
  revert m. induction bs as [|x bs IH]; intros m; cbn [foldl].
  - rewrite decide_False; [done | apply not_elem_of_nil].
  - rewrite IH. cbn [_binding_to_action set_actions].
    destruct (decide (b ∈ bs)) as [Hin|Hnin].
    + rewrite decide_True; [done | by right].
    + destruct (decide (x = b)) as [->|Hne].
      * rewrite lookup_insert_eq. rewrite decide_True; [done | left].
      * rewrite lookup_insert_ne by done. rewrite decide_False; [done|].
        rewrite not_elem_of_cons. done.
Qed.

Lemma install_actions_rest action (bs : list binding) m :
  let m' := foldl (λ m0 b0, set_actions (insert b0 action) m0) m bs in
  _window m' = _window m ∧ log_records m' = log_records m.
Proof.
  revert m. induction bs as [|x bs IH]; intros m; cbn [foldl]; [done|].
  by destruct (IH (set_actions <[x:=action]> m)) as (-> & ->).
Qed.

(** What one round of the loop of [_initialize] does. *)
Lemma initialize_action_views d action m :
  (∀ A, bindings_of (initialize_action d action m) A
        = if decide (A = action) then loaded_bindings d action
          else bindings_of m A) ∧
  (∀ b, _binding_to_action (initialize_action d action m) !! b
        = if decide (b ∈ loaded_bindings d action) then Some action
          else _binding_to_action m !! b) ∧
  _action_to_callback (initialize_action d action m) = _action_to_callback m ∧
  _window (initialize_action d action m) = _window m ∧
  conf_file (initialize_action d action m) = conf_file m ∧
  log_records (initialize_action d action m) = log_records m.
Proof.
  split.
  { intros A. unfold bindings_of at 1. rewrite initialize_action_bindings.
    destruct (decide (A = action)) as [->|Hne].
    - by rewrite lookup_insert_eq.
    - by rewrite lookup_insert_ne. }
  unfold initialize_action, loaded_bindings.
  destruct (d !! action) as [keynames|].
  - destruct (install_actions_frame action (accelerator_parse <$> keynames)
                (set_bindings <[action:=accelerator_parse <$> keynames]> m))
      as (_ & -> & ->).
    destruct (install_actions_rest action (accelerator_parse <$> keynames)
                (set_bindings <[action:=accelerator_parse <$> keynames]> m))
      as (-> & ->).
    split_and!; try done. intros b. by rewrite install_actions_lookup.
  - by split_and!.
Qed.

Lemma initialize_loop_rest d (keys : list string) m :
  let m' := foldl (λ m0 a, initialize_action d a m0) m keys in
  _action_to_callback m' = _action_to_callback m ∧
  _window m' = _window m ∧
  conf_file m' = conf_file m ∧
  log_records m' = log_records m.
Proof.
  revert m. induction keys as [|k keys IH]; intros m; cbn [foldl]; [done|].
  destruct (IH (initialize_action d k m)) as (-> & -> & -> & ->).
  by destruct (initialize_action_views d k m) as (_ & _ & -> & -> & -> & ->).
Qed.

(** X11: when the configuration file is absent or unreadable, or holds a
    JSON object from names to lists of strings, the constructor returns.
    The new manager has an entry for every action of [BINDING_INFO],
    holding the parsed strings the file has for it, or the empty list,
    and for no other key of the file; it has no callback; the file is as
    it was; and exactly when the file is absent or unreadable, one error
    is logged.  Readable JSON of another shape, on which the loop of
    [_initialize] can raise [TypeError], is not a [document] and is not
    covered. *)
Theorem new_manager_loads_catalog_actions file logged :
  ∃ m,
    new_manager file logged = Ok tt m ∧
    (∀ action,
       _action_to_bindings m !! action
       = if valid_action action
         then Some (accelerator_parse <$> default [] (default ∅ file !! action))
         else None) ∧
    _action_to_callback m = ∅ ∧
    _window m = [] ∧
    conf_file m = file ∧
    log_records m = logged ++ (if file is Some _ then [] else [ErrorLoad]).
Proof.
  eexists. split; [apply new_manager_eq|].
  split.
  { intros action.
    pose proof (new_manager_bindings file logged action) as Hb.
    rewrite new_manager_eq in Hb. cbn [final] in Hb. rewrite Hb.
    unfold valid_action. rewrite loaded_bindings_eq.
    case_decide as Hc.
    - by rewrite bool_decide_eq_true_2.
    - by rewrite bool_decide_eq_false_2. }
  by destruct (initialize_loop_rest (default ∅ file) (iterkeys BINDING_INFO)
                 (Manager ∅ ∅ ∅ [] file
                    (logged ++ if file is Some _ then [] else [ErrorLoad])))
    as (-> & -> & -> & ->).
Qed.

(** The loop of [_initialize] over keys it meets once each: every entry
    of [_binding_to_action] is listed under its action, and every listed
    binding is a key. *)
Lemma initialize_loop_owners_listed d (keys : list string) m :
  NoDup keys →
  (∀ k, k ∈ keys → bindings_of m k = []) →
  (∀ b A, _binding_to_action m !! b = Some A → b ∈ bindings_of m A) →
  (∀ A b, b ∈ bindings_of m A → is_Some (_binding_to_action m !! b)) →
  let m' := foldl (λ m0 a, initialize_action d a m0) m keys in
  (∀ b A, _binding_to_action m' !! b = Some A → b ∈ bindings_of m' A) ∧
  (∀ A b, b ∈ bindings_of m' A → is_Some (_binding_to_action m' !! b)).
Proof.
  revert m. induction keys as [|k keys IH]; intros m Hnd Hempty H1 H2;
    cbn [foldl]; [done|].
  apply NoDup_cons in Hnd as [Hk Hnd].
  destruct (initialize_action_views d k m) as (Hb & Ha & _).
  apply IH; [done | | |].
  - intros k' Hk'. rewrite Hb, decide_False; [|by intros ->].
    apply Hempty. by right.
  - intros b A. rewrite Ha, Hb. case_decide as Hin.
    + intros [= <-]. by rewrite decide_True.
    + intros HA. case_decide as HAk; [|by apply H1].
      subst A. apply H1 in HA. rewrite Hempty in HA by left.
      by apply elem_of_nil in HA.
  - intros A b. rewrite Ha, Hb. intros Hin.
    destruct (decide (b ∈ loaded_bindings d k)); [eauto|].
    case_decide; [done | by eapply H2].
Qed.

Lemma new_manager_views file logged :
  let m := final (new_manager file logged) in
  (∀ b A, _binding_to_action m !! b = Some A → b ∈ bindings_of m A) ∧
  (∀ A b, b ∈ bindings_of m A → is_Some (_binding_to_action m !! b)).
Proof.
  cbv zeta. rewrite new_manager_eq. cbn [final].
  set (m0 := Manager ∅ ∅ ∅ [] file
               (logged ++ if file is Some _ then [] else [ErrorLoad])).
  assert (∀ A, bindings_of m0 A = []) as Hempty.
  { intros A. unfold bindings_of, m0. cbn [_action_to_bindings].
    by rewrite lookup_empty. }
  apply (initialize_loop_owners_listed (default ∅ file)
           (iterkeys BINDING_INFO) m0).
  - unfold iterkeys. rewrite (iteritems_perm string binding_info BINDING_INFO).
    apply NoDup_fst_map_to_list.
  - intros k _. apply Hempty.
  - intros b A. unfold m0. cbn [_binding_to_action]. by rewrite lookup_empty.
  - intros A b. rewrite Hempty. by intros ?%elem_of_nil.
Qed.

(** X12: in a new manager, whatever the file holds, every entry of
    [_binding_to_action] names an action of the catalog that lists the
    binding, and every binding an action lists is a key of
    [_binding_to_action]. *)
Theorem new_manager_owners_listed file logged :
  let m := final (new_manager file logged) in
  (∀ b A, _binding_to_action m !! b = Some A →
          valid_action A = true ∧ b ∈ bindings_of m A) ∧
  (∀ A b, b ∈ bindings_of m A → is_Some (_binding_to_action m !! b)).
Proof.
  cbv zeta.
  destruct (new_manager_catalog_state (λ _, True) (λ _, I) file logged)
    as (_ & Hvalid & _).
  destruct (new_manager_views file logged) as [H1 H2].
  split; [|exact H2].
  intros b A Hb. split; [by apply (Hvalid b) | by apply H1].
Qed.

End InitializeMore.

(** ** The constructor followed by calls *)

Section Sessions.
Context `{Gtk} `{DictOrder}.
Implicit Types (m : manager) (name action : string) (b kb : binding).

Lemma run_ops_coherent os m m' :
  coherent m → run_ops os m = Some m' → coherent m'.
Proof.
  revert m. induction os as [|o os IH]; intros m Hc; cbn [run_ops].
  - by intros [= <-].
  - destruct (run_op o m) as [m1|] eqn:E; [|done].
    apply IH. by eapply run_op_coherent.
Qed.

(** X13: until an action is registered, an event that hits one of the
    bindings loaded for it makes [execute] raise [KeyError], the manager
    being left as it was: a new manager has no callback at all. *)
Theorem execute_before_register_raises file logged kb a :
  let m := final (new_manager file logged) in
  _binding_to_action m !! kb = Some a →
  execute kb m = Raise KeyError m.
Proof.
  intros m Hkb. unfold execute. run_monad. rewrite Hkb, run_action_eq.
  unfold m. rewrite new_manager_eq. cbn [final].
  destruct (initialize_loop_rest (default ∅ file) (iterkeys BINDING_INFO)
              (Manager ∅ ∅ ∅ [] file
                 (logged ++ if file is Some _ then [] else [ErrorLoad])))
    as (-> & _).
  cbn [_action_to_callback]. by rewrite lookup_empty.
Qed.

(** X14: when the file gives no binding twice, neither under one action
    of the catalog nor under two, the new manager's views agree, and they
    still agree after any sequence of successful [register], [edit_accel]
    and [clear_accel] calls.  An absent file is such a file. *)
Theorem sessions_from_clean_file_agree file logged os m :
  let stored := λ action,
    accelerator_parse <$> default [] (default ∅ file !! action) in
  (∀ A, valid_action A = true → NoDup (stored A)) →
  (∀ A B b, valid_action A = true → valid_action B = true →
            b ∈ stored A → b ∈ stored B → A = B) →
  run_ops os (final (new_manager file logged)) = Some m →
  views_agree m ∧ no_repeats m.
Proof.
  intros stored Hnd Hdisj Hrun.
  apply (run_ops_coherent os (final (new_manager file logged))); [|done].
  clear Hrun m.
  assert (∀ A, bindings_of (final (new_manager file logged)) A
               = if decide (is_Some (BINDING_INFO !! A)) then stored A else [])
    as Hlists.
  { intros A. unfold bindings_of. rewrite new_manager_bindings.
    case_decide; [|done]. cbn [default]. apply loaded_bindings_eq. }
  assert (∀ A b, b ∈ bindings_of (final (new_manager file logged)) A →
                 valid_action A = true ∧ b ∈ stored A) as Hin.
  { intros A b. rewrite Hlists. case_decide; [|by intros ?%elem_of_nil].
    intros Hb. split; [by apply bool_decide_eq_true | done]. }
  destruct (new_manager_views file logged) as [H1 H2].
  split; [split|].
  - exact H1.
  - intros A b HbA. destruct (H2 A b HbA) as [A' HA']. rewrite HA'. f_equal.
    pose proof (H1 b A' HA') as HbA'.
    apply Hin in HbA as [HvA HsA]. apply Hin in HbA' as [HvA' HsA'].
    by apply (Hdisj A' A b).
  - intros A. rewrite Hlists. case_decide as Hc; [|apply NoDup_nil_2].
    apply Hnd. by apply bool_decide_eq_true.
Qed.

(** X15: every manager reached from the constructor by successful calls
    has an entry exactly for the actions of [BINDING_INFO], names only
    such actions as owners, and lists only bindings that
    [gtk.accelerator_parse] has returned. *)
Theorem reachable_managers_stay_in_catalog file logged os m :
  run_ops os (final (new_manager file logged)) = Some m →
  dom (_action_to_bindings m) = dom BINDING_INFO ∧
  (∀ b A, _binding_to_action m !! b = Some A → valid_action A = true) ∧
  (∀ A b, b ∈ bindings_of m A → ∃ s, accelerator_parse s = b).
Proof.
  intros Hrun.
  by destruct (reachable_catalog_state (λ b, ∃ s, accelerator_parse s = b)
                 (λ s, ex_intro _ s eq_refl) file logged os m Hrun)
    as (Hdom & Hown & Hlist).
Qed.

(** X16: [get_bindings_for_action] for a valid name on a manager reached
    from the constructor returns the action's list and changes nothing,
    the [defaultdict] having an entry for every such name. *)
Theorem get_bindings_reads_only file logged os m name :
  run_ops os (final (new_manager file logged)) = Some m →
  valid_action name = true →
  get_bindings_for_action name m = Ok (bindings_of m name) m.
Proof.
  intros Hrun Hv. unfold get_bindings_for_action.
  rewrite bindings_getitem_eq. f_equal. apply touched_constructed.
  by apply (reachable_constructed file logged os m Hrun).
Qed.

(** X17: the defaults are only used when nothing was loaded: [register]
    on a new manager, for an action the file has bindings for, changes
    neither view. *)
Theorem register_after_load_keeps_file_bindings file logged name bindings cb :
  let m := final (new_manager file logged) in
  valid_action name = true →
  bindings_of m name ≠ [] →
  ∃ m', register name bindings cb m = Ok tt m' ∧
        _action_to_bindings m' = _action_to_bindings m ∧
        _binding_to_action m' = _binding_to_action m.
Proof.
  intros m Hv Hne.
  destruct (register_unfold_stored name bindings cb m Hv Hne)
    as (m1 & Hrun & ->).
  eexists. split; [done|].
  assert (same_registry m m1) as (_ & Hb & Ha & _); [|done].
  eapply register_stored_same; [|done].
  intros b Hb. by apply (new_manager_views file logged) in Hb.
Qed.

End Sessions.

(** ** [register] over a stored list *)

Section RegisterStored.
Context `{Gtk} `{DictOrder}.
Implicit Types (m : manager) (name : string) (b kc : binding).

(** Reading elements that [name] already owns changes nothing. *)
Lemma register_stored_tail bound name (pre ext : list binding) m :
  bindings_of m name = pre ++ ext →
  (∀ x, x ∈ ext → _binding_to_action m !! x = Some name) →
  (length ext ≤ bound)%nat →
  register_stored bound name (length pre) m = Some m.
Proof.
  revert pre bound. induction ext as [|x ext IH]; intros pre bound Hl Hown Hb.
  - assert (bindings_of m name !! length pre = None) as Hnone.
    { apply lookup_ge_None. rewrite Hl, app_nil_r. lia. }
    destruct bound; simpl; by rewrite Hnone.
  - assert (bindings_of m name !! length pre = Some x) as Hx.
    { rewrite Hl. apply list_lookup_middle. done. }
    destruct bound as [|bound]; [simpl in Hb; lia|].
    simpl. rewrite Hx.
    assert (register_keycode name x m = m) as ->.
    { unfold register_keycode. rewrite (Hown x) by left.
      by rewrite decide_False by (by intros ?). }
    replace (S (length pre)) with (length (pre ++ [x]))
      by (rewrite length_app; simpl; lia).
    apply IH.
    + by rewrite <- app_assoc.
    + intros y Hy. apply Hown. by right.
    + simpl in Hb. lia.
Qed.

(** The loop over the stored list does what a loop over a copy of the
    list would do: the elements it appends are read too, but each of
    them is owned by [name] by then. *)
Lemma register_stored_snapshot bound name (pre rest ext : list binding) m :
  bindings_of m name = pre ++ rest ++ ext →
  (∀ x, x ∈ ext → _binding_to_action m !! x = Some name) →
  (length rest + length ext + unbound_count m rest ≤ bound)%nat →
  register_stored bound name (length pre) m
  = Some (register_defaults name rest m).
Proof.
  revert pre ext m bound.
  induction rest as [|kc rest IH]; intros pre ext m bound Hl Hown Hb.
  - apply (register_stored_tail bound name pre ext); [done..|].
    simpl in Hb. lia.
  - assert (bindings_of m name !! length pre = Some kc) as Hkc.
    { rewrite Hl. apply list_lookup_middle. done. }
    destruct bound as [|bound]; [simpl in Hb; lia|].
    simpl. rewrite Hkc.
    change (register_defaults name (kc :: rest) m)
      with (register_defaults name rest (register_keycode name kc m)).
    replace (S (length pre)) with (length (pre ++ [kc]))
      by (rewrite length_app; simpl; lia).
    destruct (_binding_to_action m !! kc) as [owner|] eqn:E.
    + destruct (register_keycode_bound name kc m owner E) as (_&Hb'&Ha'&_).
      apply (IH (pre ++ [kc]) ext).
      * rewrite (bindings_of_same _ _ _ Hb'), Hl. by rewrite <- app_assoc.
      * intros x Hx. rewrite Ha'. by apply Hown.
      * unfold unbound_count in *. rewrite Ha'.
        rewrite filter_cons, decide_False in Hb by congruence.
        simpl in Hb. lia.
    + rewrite (register_keycode_unbound _ _ _ E).
      apply (IH (pre ++ [kc]) (ext ++ [kc])).
      * rewrite bindings_of_append, decide_True by done.
        rewrite bindings_of_set_actions, Hl.
        by rewrite <- !app_assoc.
      * intros x Hx. simpl. destruct (decide (kc = x)) as [->|Hne].
        -- apply lookup_insert_eq.
        -- rewrite lookup_insert_ne by done. apply Hown.
           apply elem_of_app in Hx as [?|?%list_elem_of_singleton];
             [done | congruence].
      * pose proof (unbound_count_insert m rest kc name) as Hmono.
        unfold unbound_count in Hb.
        rewrite filter_cons, decide_True in Hb by done.
        rewrite length_app. simpl in *. unfold unbound_count in *. lia.
Qed.

(** X18: when the action has a stored list without repeated bindings,
    [register] makes the action the owner of every stored binding that
    had no owner and appends each of these to the list once more; the
    bindings that had an owner keep it, and the defaults are not
    looked at. *)
Theorem register_reclaims_stored_bindings name bindings cb m :
  let l := bindings_of m name in
  valid_action name = true →
  l ≠ [] →
  NoDup l →
  ∃ m',
    register name bindings cb m = Ok tt m' ∧
    bindings_of m' name
    = l ++ filter (λ kc, _binding_to_action m !! kc = None) l ∧
    ∀ b, _binding_to_action m' !! b
         = if decide (b ∈ l ∧ _binding_to_action m !! b = None)
           then Some name else _binding_to_action m !! b.
Proof.
  intros l Hv Hne Hnd.
  destruct (register_unfold_stored name bindings cb m Hv Hne)
    as (m1 & Hrun & ->).
  rewrite (register_stored_snapshot _ name [] l [] m) in Hrun.
  - injection Hrun as <-. eexists. split; [done|].
    by destruct (register_defaults_fresh name l m Hnd) as [Hl Ha].
  - by rewrite app_nil_r.
  - by intros x ?%elem_of_nil.
  - fold l. pose proof (unbound_count_le m l). simpl. lia.
Qed.

End RegisterStored.

(** ** [edit_accel] with an old binding, whoever owns the new one *)

Section EditReplace.
Context `{Gtk} `{DictOrder}.
Implicit Types (m : manager) (name : string) (b nb ob : binding).

(** X19: [edit_accel] with a non-empty old binding succeeds whenever the
    old binding is listed by [name] and is a key of [_binding_to_action],
    the new binding differs from it, and the owner of the new binding, if
    any, lists it.  The new binding is first taken out of its owner's
    list, also when the owner is [name] itself; in the list of [name] as
    it then is, it is put at the place [list.index] finds the old binding
    at.  The old binding's entry is deleted, the new binding is mapped to
    [name], the previous owner is returned and the file is written. *)
Theorem edit_accel_swaps name new_binding old_binding m :
  let nb := accelerator_parse new_binding in
  let ob := accelerator_parse old_binding in
  let detached := λ A,
    if decide (_binding_to_action m !! nb = Some A)
    then without nb (bindings_of m A) else bindings_of m A in
  valid_action name = true →
  old_binding ≠ ""%string →
  nb ≠ ob →
  ob ∈ bindings_of m name →
  is_Some (_binding_to_action m !! ob) →
  (∀ owner, _binding_to_action m !! nb = Some owner →
            nb ∈ bindings_of m owner) →
  ∃ m' idx,
    edit_accel name new_binding old_binding m
    = Ok (_binding_to_action m !! nb) m' ∧
    py_index ob (detached name) = Some idx ∧
    bindings_of m' name = <[idx := nb]> (detached name) ∧
    (∀ A, A ≠ name → bindings_of m' A = detached A) ∧
    _binding_to_action m' = <[nb := name]> (delete ob (_binding_to_action m)) ∧
    conf_file m' = Some (saved_document m').
Proof.
  intros nb ob detached Hv Hold Hne Hin [X Hob] Hown.
  rewrite edit_accel_eq by done. fold nb.
  assert (∃ m1, detach nb m = Ok tt m1 ∧
                (∀ A, bindings_of m1 A = detached A) ∧
                _binding_to_action m1 = delete nb (_binding_to_action m) ∧
                conf_file m1 = conf_file m)
    as (m1 & -> & Hl1 & Ha1 & Hf1).
  { rewrite detach_eq. unfold detached.
    destruct (_binding_to_action m !! nb) as [owner|] eqn:E.
    - destruct (py_remove_is_Some _ _ (Hown owner eq_refl)) as [l' Hl'].
      cbv zeta. rewrite Hl'. eexists. split; [done|]. split_and!.
      + intros A. rewrite bindings_of_set_bindings_insert.
        rewrite bindings_of_touched, bindings_of_set_actions.
        destruct (decide (A = owner)) as [->|HA].
        * rewrite decide_True by done. by rewrite (without_in _ _ _ Hl').
        * rewrite decide_False; [done | congruence].
      + simpl. by rewrite actions_touched.
      + simpl. unfold touched. by case_match.
    - eexists. split; [done|]. split_and!; [|by rewrite delete_id|done].
      intros A. by rewrite decide_False. }
  assert (ob ∈ detached name) as Hin1.
  { unfold detached. case_decide; [|done]. unfold without.
    destruct (py_remove nb (bindings_of m name)) as [l'|] eqn:E; [|done].
    cbn [default]. eapply py_remove_elem_of_ne; [done | congruence | done]. }
  destruct (py_index ob (detached name)) as [idx|] eqn:Hidx; last first.
  { by apply py_index_None in Hidx. }
  pose proof Hidx as [Hlook _]%py_index_Some.
  destruct (py_pop_insert _ _ _ nb Hlook) as (l' & Hpop & Hins).
  rewrite attach_replace_eq by done. cbv zeta. fold ob.
  rewrite Ha1, lookup_delete_ne, Hob, Hl1, Hidx, Hpop by done.
  eexists _, idx. split; [done|]. split_and!; try done.
  - rewrite bindings_of_write_conf, bindings_of_set_bindings_insert.
    by rewrite decide_True.
  - intros A HA. rewrite bindings_of_write_conf.
    rewrite bindings_of_set_bindings_insert, decide_False by done.
    by rewrite bindings_of_touched, !bindings_of_set_actions.
  - simpl. rewrite actions_touched. simpl. rewrite Ha1.
    apply map_eq. intros b. destruct (decide (b = nb)) as [->|Hb].
    + by rewrite !lookup_insert_eq.
    + rewrite !lookup_insert_ne by done.
      destruct (decide (b = ob)) as [->|Hb'].
      * by rewrite !lookup_delete_eq.
      * by rewrite !lookup_delete_ne.
Qed.

End EditReplace.

(** ** The further properties on concrete managers *)

Section MoreChecks.
Context `{Gtk}.

Lemma stored_check (P : list binding → Prop) (d : document) :
  P [] →
  map_Forall (λ _ l, P (accelerator_parse <$> l)) d →
  ∀ A, P (accelerator_parse <$> default [] (d !! A)).
Proof.
  intros Hnil Hall A. destruct (d !! A) as [l|] eqn:E; [|done].
  by apply (Hall A).
Qed.

Lemma stored_disjoint_check (d : document) :
  map_Forall (λ A l,
    map_Forall (λ B l',
      A = B ∨ Forall (λ b, b ∉ accelerator_parse <$> l')
                 (accelerator_parse <$> l)) d) d →
  ∀ A B b, b ∈ accelerator_parse <$> default [] (d !! A) →
           b ∈ accelerator_parse <$> default [] (d !! B) → A = B.
Proof.
  intros Hall A B b.
  destruct (d !! A) as [l|] eqn:EA; [|by intros ?%elem_of_nil].
  destruct (d !! B) as [l'|] eqn:EB; [|by intros _ ?%elem_of_nil].
  cbn [default]. intros HA HB.
  destruct (Hall A l EA B l' EB) as [?|Hno]; [done|].
  eapply Forall_forall in Hno; [|done]. done.
Qed.

End MoreChecks.

Section MoreExamples.
Import Scenario.
Local Existing Instance gtk_fragment.
Local Existing Instance listed_order.

(** The further scenario managers are what the calls return. *)
Lemma more_scenario_calls :
  new_manager (Some clean_doc) [] = Ok tt clean ∧
  run_ops clean_session clean = Some after_clean_session ∧
  run_ops (OpRegister "zoom in" ["<Control>equal"; "<Control>KP_Add"]%string
             seven :: session) fresh = Some after_session.
Proof. compute_all. Qed.

(** X1, witness: ["zoom out"] takes [<Control>equal] from ["zoom in"]. *)
Lemma edit_accel_appends_witness :
  ∃ m',
    edit_accel "zoom out" "<Control>equal" "" zoom
    = Ok (_binding_to_action zoom !! accelerator_parse "<Control>equal") m' ∧
    _binding_to_action m'
    = <[accelerator_parse "<Control>equal" := "zoom out"%string]>
        (_binding_to_action zoom) ∧
    (∀ A, bindings_of m' A
          = let l := if decide (_binding_to_action zoom
                                  !! accelerator_parse "<Control>equal"
                                = Some A)
                     then without (accelerator_parse "<Control>equal")
                            (bindings_of zoom A)
                     else bindings_of zoom A in
            if decide (A = "zoom out"%string)
            then l ++ [accelerator_parse "<Control>equal"] else l) ∧
    _action_to_callback m' = _action_to_callback zoom ∧
    conf_file m' = Some (saved_document m').
Proof.
  apply (edit_accel_appends "zoom out" "<Control>equal" zoom).
  - compute_eq.
  - intros owner Ho.
    assert (owner = "zoom in"%string) as ->
      by (vm_compute in Ho; congruence).
    decide_now.
Defined.

(** X2, witness: ["zoom in"] gives up [<Control>KP_Add]. *)
Lemma clear_accel_removes_witness :
  ∃ m',
    clear_accel "zoom in" "<Control>KP_Add" zoom = Ok tt m' ∧
    bindings_of m' "zoom in"
    = without (accelerator_parse "<Control>KP_Add") (bindings_of zoom "zoom in") ∧
    (∀ A, A ≠ "zoom in"%string → bindings_of m' A = bindings_of zoom A) ∧
    _binding_to_action m'
    = delete (accelerator_parse "<Control>KP_Add") (_binding_to_action zoom) ∧
    _action_to_callback m' = _action_to_callback zoom ∧
    conf_file m' = Some (saved_document m').
Proof.
  apply (clear_accel_removes "zoom in" "<Control>KP_Add" zoom).
  - compute_eq.
  - decide_now.
  - decide_now.
Defined.

(** X3, witness: [<Control>plus] added to ["zoom in"] and cleared again. *)
Lemma edit_then_clear_restores_witness :
  ∃ m1 m2,
    edit_accel "zoom in" "<Control>plus" "" zoom = Ok None m1 ∧
    clear_accel "zoom in" "<Control>plus" m1 = Ok tt m2 ∧
    _action_to_bindings m2 = _action_to_bindings zoom ∧
    _binding_to_action m2 = _binding_to_action zoom ∧
    _action_to_callback m2 = _action_to_callback zoom.
Proof.
  apply (edit_then_clear_restores "zoom in" "<Control>plus" zoom).
  - apply constructed_check. decide_now.
  - compute_eq.
  - compute_eq.
  - decide_now.
Defined.

(** X4, witness: ["zoom out"] lists [<Control>plus], loaded from the file,
    which has no entry any more. *)
Lemma clear_accel_unmapped_fails_after_removal_witness :
  ∃ m',
    clear_accel "zoom out" "<Control>plus" loaded_cleared = Raise KeyError m' ∧
    bindings_of m' "zoom out"
    = without (accelerator_parse "<Control>plus")
        (bindings_of loaded_cleared "zoom out") ∧
    (∀ A, A ≠ "zoom out"%string →
          bindings_of m' A = bindings_of loaded_cleared A) ∧
    _binding_to_action m' = _binding_to_action loaded_cleared ∧
    conf_file m' = conf_file loaded_cleared.
Proof.
  apply (clear_accel_unmapped_fails_after_removal
           "zoom out" "<Control>plus" loaded_cleared).
  - compute_eq.
  - decide_now.
  - compute_eq.
Defined.

(** X5, witness: ["zoom out"] names [<Control>equal], a binding of
    ["zoom in"], as the one to replace. *)
Lemma edit_accel_foreign_old_fails_after_swap_witness :
  ∃ m',
    edit_accel "zoom out" "<Control>plus" "<Control>equal" zoom_both
    = Raise ValueError m' ∧
    _binding_to_action m'
    = <[accelerator_parse "<Control>plus" := "zoom out"%string]>
        (delete (accelerator_parse "<Control>equal")
           (_binding_to_action zoom_both)) ∧
    (∀ A, bindings_of m' A = bindings_of zoom_both A) ∧
    conf_file m' = conf_file zoom_both.
Proof.
  apply (edit_accel_foreign_old_fails_after_swap
           "zoom out" "<Control>plus" "<Control>equal" zoom_both).
  - compute_eq.
  - decide_now.
  - compute_eq.
  - decide_now.
  - decide_now.
Defined.

(** X6, witness: ["zoom out"] registers on [zoom]. *)
Lemma register_only_adds_witness :
  ∃ m' ext,
    register "zoom out" ["<Control>equal"; "<Control>minus"]%string seven zoom
    = Ok tt m' ∧
    bindings_of m' "zoom out" = bindings_of zoom "zoom out" ++ ext ∧
    (∀ A, A ≠ "zoom out"%string → bindings_of m' A = bindings_of zoom A) ∧
    (∀ b A, _binding_to_action zoom !! b = Some A →
            _binding_to_action m' !! b = Some A) ∧
    (∀ b, _binding_to_action zoom !! b = None →
          _binding_to_action m' !! b = None ∨
          (_binding_to_action m' !! b = Some "zoom out"%string ∧ b ∈ ext)) ∧
    _action_to_callback m'
    = <["zoom out"%string := seven]> (_action_to_callback zoom) ∧
    _window m' = _window zoom ∧
    conf_file m' = conf_file zoom.
Proof.
  apply (register_only_adds "zoom out"
           ["<Control>equal"; "<Control>minus"]%string seven zoom).
  compute_eq.
Defined.

(** X7, witness: of the two defaults of ["zoom out"], one has an owner. *)
Lemma register_seeds_unowned_defaults_witness :
  ∃ m',
    register "zoom out" ["<Control>equal"; "<Control>minus"]%string seven zoom
    = Ok tt m' ∧
    bindings_of m' "zoom out"
    = filter (λ kc, _binding_to_action zoom !! kc = None)
        (accelerator_parse <$> ["<Control>equal"; "<Control>minus"]%string) ∧
    ∀ b, _binding_to_action m' !! b
         = if decide (b ∈ accelerator_parse
                          <$> ["<Control>equal"; "<Control>minus"]%string ∧
                      _binding_to_action zoom !! b = None)
           then Some "zoom out"%string else _binding_to_action zoom !! b.
Proof.
  apply (register_seeds_unowned_defaults "zoom out"
           ["<Control>equal"; "<Control>minus"]%string seven zoom).
  - compute_eq.
  - compute_eq.
  - decide_now.
Defined.

(** X8, witness: ["zoom out"] registers twice on [zoom]. *)
Lemma register_twice_is_register_once_witness :
  ∃ m1 m2,
    register "zoom out" ["<Control>equal"; "<Control>minus"]%string seven zoom
    = Ok tt m1 ∧
    register "zoom out" ["<Control>equal"; "<Control>minus"]%string seven m1
    = Ok tt m2 ∧
    same_registry m1 m2.
Proof.
  apply (register_twice_is_register_once "zoom out"
           ["<Control>equal"; "<Control>minus"]%string seven zoom).
  compute_eq.
Defined.

(** X9, witness: ["osd panel"] registered on the key [a], then the key
    pressed. *)
Lemma register_then_execute_witness :
  ∃ m' m'',
    register "osd panel" ["a"]%string first_arg zoom = Ok tt m' ∧
    execute (accelerator_parse "a") m' = Ok (invoke first_arg) m'' ∧
    key_press_stopped m' m''.
Proof.
  apply (register_then_execute "osd panel" ["a"]%string first_arg zoom "a").
  - compute_eq.
  - compute_eq.
  - decide_now.
  - compute_eq.
Defined.

(** X12, witness: in the manager loaded from the file that gives one
    binding to two actions, the binding's owner lists it, and the binding
    is a key although ["zoom out"] lists it too. *)
Lemma new_manager_owners_listed_witness :
  (valid_action "zoom in" = true ∧ (43, 4) ∈ bindings_of loaded "zoom in") ∧
  is_Some (_binding_to_action loaded !! (43, 4)).
Proof.
  destruct (new_manager_owners_listed (Some conflict_doc) []) as [H1 H2].
  split.
  - apply (H1 (43, 4) "zoom in"%string). compute_eq.
  - apply (H2 "zoom out"%string (43, 4)). decide_now.
Defined.

(** X13, witness: the loaded binding pressed before any [register]. *)
Lemma execute_before_register_raises_witness :
  execute (43, 4) loaded = Raise KeyError loaded.
Proof.
  apply (execute_before_register_raises (Some conflict_doc) [] (43, 4)
           "zoom in"%string).
  compute_eq.
Defined.

(** X14, witness: four calls on the manager loaded from a file that gives
    every binding once. *)
Lemma sessions_from_clean_file_agree_witness :
  views_agree after_clean_session ∧ no_repeats after_clean_session.
Proof.
  apply (sessions_from_clean_file_agree (Some clean_doc) [] clean_session
           after_clean_session).
  - intros A _. apply (stored_check (λ l, NoDup l)); [apply NoDup_nil_2|].
    decide_now.
  - intros A B b _ _. apply stored_disjoint_check. decide_now.
  - compute_eq.
Defined.

(** X15, witness: the manager after the session on [zoom]. *)
Lemma reachable_managers_stay_in_catalog_witness :
  dom (_action_to_bindings after_session) = dom BINDING_INFO ∧
  (∀ b A, _binding_to_action after_session !! b = Some A →
          valid_action A = true) ∧
  (∀ A b, b ∈ bindings_of after_session A → ∃ s, accelerator_parse s = b).
Proof.
  apply (reachable_managers_stay_in_catalog None []
           (OpRegister "zoom in" ["<Control>equal"; "<Control>KP_Add"]%string
              seven :: session)).
  compute_eq.
Defined.

(** X16, witness: the list of ["zoom in"] read after the session. *)
Lemma get_bindings_reads_only_witness :
  get_bindings_for_action "zoom in" after_session
  = Ok (bindings_of after_session "zoom in") after_session.
Proof.
  apply (get_bindings_reads_only None []
           (OpRegister "zoom in" ["<Control>equal"; "<Control>KP_Add"]%string
              seven :: session)).
  - compute_eq.
  - compute_eq.
Defined.

(** X17, witness: ["zoom out"] registers on the loaded manager with a
    default of its own. *)
Lemma register_after_load_keeps_file_bindings_witness :
  ∃ m', register "zoom out" ["<Control>minus"]%string seven loaded = Ok tt m' ∧
        _action_to_bindings m' = _action_to_bindings loaded ∧
        _binding_to_action m' = _binding_to_action loaded.
Proof.
  apply (register_after_load_keeps_file_bindings (Some conflict_doc) []
           "zoom out" ["<Control>minus"]%string seven).
  - compute_eq.
  - decide_now.
Defined.

(** X18, witness: ["zoom out"] registers once the owner of the binding it
    lists has given the binding up. *)
Lemma register_reclaims_stored_bindings_witness :
  ∃ m',
    register "zoom out" [] seven loaded_cleared = Ok tt m' ∧
    bindings_of m' "zoom out"
    = bindings_of loaded_cleared "zoom out"
      ++ filter (λ kc, _binding_to_action loaded_cleared !! kc = None)
           (bindings_of loaded_cleared "zoom out") ∧
    ∀ b, _binding_to_action m' !! b
         = if decide (b ∈ bindings_of loaded_cleared "zoom out" ∧
                      _binding_to_action loaded_cleared !! b = None)
           then Some "zoom out"%string
           else _binding_to_action loaded_cleared !! b.
Proof.
  apply (register_reclaims_stored_bindings "zoom out" [] seven loaded_cleared).
  - compute_eq.
  - decide_now.
  - decide_now.
Defined.

(** X19, witness: ["zoom in"] has [<Control>equal] put in place of
    [<Control>KP_Add]; being a binding of ["zoom in"] already, it is first
    taken out of the list. *)
Lemma edit_accel_swaps_witness :
  ∃ m' idx,
    edit_accel "zoom in" "<Control>equal" "<Control>KP_Add" zoom
    = Ok (_binding_to_action zoom !! accelerator_parse "<Control>equal") m' ∧
    py_index (accelerator_parse "<Control>KP_Add")
      (without (accelerator_parse "<Control>equal")
         (bindings_of zoom "zoom in")) = Some idx ∧
    bindings_of m' "zoom in"
    = <[idx := accelerator_parse "<Control>equal"]>
        (without (accelerator_parse "<Control>equal")
           (bindings_of zoom "zoom in")) ∧
    _binding_to_action m'
    = <[accelerator_parse "<Control>equal" := "zoom in"%string]>
        (delete (accelerator_parse "<Control>KP_Add")
           (_binding_to_action zoom)).
Proof.
  destruct (edit_accel_swaps "zoom in" "<Control>equal" "<Control>KP_Add" zoom)
    as (m' & idx & Hrun & Hidx & Hl & _ & Ha & _).
  - compute_eq.
  - decide_now.
  - decide_now.
  - decide_now.
  - decide_now.
  - intros owner Ho.
    assert (owner = "zoom in"%string) as ->
      by (vm_compute in Ho; congruence).
    decide_now.
  - exists m', idx. split; [exact Hrun|]. split; [exact Hidx|].
    split; [exact Hl | exact Ha].
Defined.

End MoreExamples.
